(** * Elkeid LKM utilities ([driver/LKM/src/util.c]): a shallow embedding

    The file embeds the four helpers of [util.c]

    - [hash_murmur_OAAT64]       the one-at-a-time 64-bit fingerprint,
    - [smith_dentry_path]        the backward path builder over a dentry chain,
    - [smith_kallsyms_lookup_name] the symbol resolver (kprobe based or direct),
    - [smith_query_sb_uuid]      the address of the volume identifier,

    and proves the properties stated about them.  C integers are [Z] with the
    wrap-around of their width written out, bytes are [Byte.byte], pointers
    into the caller's buffer are offsets from its base, and the dentry cache
    is a finite map from addresses to nodes. *)

From Stdlib Require Import ZArith Lia Bool.
From Stdlib Require Import Init.Byte.
From stdpp Require Import base option list gmap strings.

Local Open Scope Z_scope.

(** ** Outcomes of a C computation

    [Ret] is a normal return.  [Fault] stands for what C leaves undefined and
    the kernel turns into an oops: a load or store outside the object it was
    aimed at, or a dereference of an address that holds no node.  [OutOfFuel] is
    only produced by the fuel of the [while] loop of [smith_dentry_path]. *)

Inductive exec (A : Type) : Type :=
| Ret (a : A)
| Fault
| OutOfFuel.
Arguments Ret {A} a.
Arguments Fault {A}.
Arguments OutOfFuel {A}.

(** [exec] is a monad; sequencing uses stdpp's [x ← m; k] notation. *)
#[global] Instance exec_ret : MRet exec := fun A a => Ret a.
#[global] Instance exec_bind : MBind exec := fun A B k m =>
  match m with
  | Ret a => k a
  | Fault => Fault
  | OutOfFuel => OutOfFuel
  end.

(** ** Machine integers *)

(** [uint64_t]: every result is reduced modulo [2^64]. *)
Definition u64 (z : Z) : Z := z mod 2 ^ 64.

Definition is_u64 (z : Z) : Prop := 0 <= z < 2 ^ 64.

Definition INT_MIN : Z := - 2 ^ 31.
Definition INT_MAX : Z := 2 ^ 31 - 1.

(** [int]: two's complement on 32 bits.  The kernel is built with
    [-fno-strict-overflow], so an overflowing [int] operation wraps. *)
Definition to_int (z : Z) : Z := (z + 2 ^ 31) mod 2 ^ 32 - 2 ^ 31.

(** ** Build configuration

    What the preprocessor and the compiler fix for one build of the module:
    the kernel version the [#if]s test, whether plain [char] is signed
    (x86 before Linux 6.2) or unsigned ([-funsigned-char], arm64), and the two
    [offsetof] values of [struct super_block] that [smith_query_sb_uuid] uses.
    The structure itself is declared by the kernel headers. *)

Record build_config : Type := {
  LINUX_VERSION_CODE : Z;
  char_is_signed : bool;
  offsetof_super_block_s_dev : Z;
  offsetof_super_block_s_uuid : Z
}.

(** [KERNEL_VERSION(a,b,c)] of [linux/version.h]. *)
Definition KERNEL_VERSION (a b c : Z) : Z :=
  Z.shiftl a 16 + Z.shiftl b 8 + c.

(** ** Memory *)

(** Value of a byte as an unsigned char. *)
Definition byte_val (b : byte) : Z := Z.of_N (Byte.to_N b).

(** [s[i]]: a load from the object [s]. *)
Definition load (s : list byte) (i : Z) : exec byte :=
  if i <? 0 then Fault
  else match s !! Z.to_nat i with
       | Some b => Ret b
       | None => Fault
       end.

(** [memcpy(dst + off, src, n)] on the object [dst]; [n] is converted to
    [size_t], so a negative [n] is a huge count and runs off both objects. *)
Definition memcpy (dst : list byte) (off : Z) (src : list byte) (n : Z)
  : exec (list byte) :=
  if (0 <=? n) && (n <=? Z.of_nat (length src))
     && (0 <=? off) && (off + n <=? Z.of_nat (length dst))
  then Ret (take (Z.to_nat off) dst ++ take (Z.to_nat n) src
              ++ drop (Z.to_nat (off + n)) dst)
  else Fault.

(** [*p = c] with [p = dst + off]. *)
Definition store (dst : list byte) (off : Z) (c : byte) : exec (list byte) :=
  if (0 <=? off) && (off <? Z.of_nat (length dst))
  then Ret (<[Z.to_nat off := c]> dst)
  else Fault.

(** [for (i = lo; i < hi; i++) body]: the body changes neither [i] nor [hi],
    so the loop runs [hi - lo] times (none when [hi <= lo]). *)
Fixpoint for_loop {S : Type} (n : nat) (i : Z) (body : Z -> S -> exec S) (s : S)
  : exec S :=
  match n with
  | O => Ret s
  | Datatypes.S n' => s' ← body i s; for_loop n' (i + 1) body s'
  end.

Definition for_range {S : Type} (lo hi : Z) (body : Z -> S -> exec S) (s : S)
  : exec S :=
  for_loop (Z.to_nat (hi - lo)) lo body s.

(** ** Fingerprint hasher: [hash_murmur_OAAT64] *)

(** [(uint64_t)(s[i])] for [char *s]: a signed [char] of 0x80 and above is
    negative and its conversion to [uint64_t] sign-extends it. *)
Definition char_to_u64 (cfg : build_config) (c : byte) : Z :=
  if char_is_signed cfg && (128 <=? byte_val c)
  then u64 (byte_val c - 256)
  else u64 (byte_val c).

Definition hash_seed : Z := 525201411107845655.
Definition hash_mult : Z := 0x5bd1e9955bd1e995.

(** The inverse of the multiplier modulo [2^64]; it exists because the
    multiplier is odd.  Only the proofs use it. *)
Definition hash_mult_inv : Z := 6066016189847116221.

(** One turn of the loop body:
    [h ^= (uint64_t)(s[i]); h *= 0x5bd1e9955bd1e995; h ^= h >> 47;] *)
Definition hash_round (cfg : build_config) (c : byte) (h : Z) : Z :=
  let h := Z.lxor h (char_to_u64 cfg c) in
  let h := u64 (h * hash_mult) in
  Z.lxor h (Z.shiftr h 47).

Definition hash_murmur_OAAT64 (cfg : build_config) (s : list byte) (len : Z)
  : exec Z :=
  for_range 0 len
    (fun i h => c ← load s i; Ret (hash_round cfg c h))
    hash_seed.

(** The hasher as the specification words it: start from the seed and, for
    each of the first [n] bytes in order, XOR the byte into the accumulator,
    multiply by the constant, XOR with the accumulator shifted right by 47,
    everything modulo [2^64].  [widen] says which 64-bit value a byte stands
    for. *)
Definition spec_round (widen : byte -> Z) (acc : Z) (b : byte) : Z :=
  let acc := Z.lxor acc (widen b) in
  let acc := (acc * 0x5bd1e9955bd1e995) mod 2 ^ 64 in
  Z.lxor acc (Z.shiftr acc 47).

(** With the byte taken as the number 0..255 it is. *)
Definition spec_hash (s : list byte) (n : nat) : Z :=
  fold_left (spec_round byte_val) (take n s) 525201411107845655.

(** With the byte sign-extended where the build's [char] is signed: 0x80 and
    above also set the upper 56 bits. *)
Definition widened_byte (cfg : build_config) (b : byte) : Z :=
  if char_is_signed cfg && (128 <=? byte_val b)
  then byte_val b + 0xFFFFFFFFFFFFFF00
  else byte_val b.

Definition spec_hash_widened (cfg : build_config) (s : list byte) (n : nat) : Z :=
  fold_left (spec_round (widened_byte cfg)) (take n s) 525201411107845655.

(** Bytes that every build widens alike. *)
Definition ascii_only (s : list byte) : bool :=
  forallb (fun b => byte_val b <? 128) s.

(** ** Path reconstructor: [prepend], [prepend_name], [smith_dentry_path] *)

(** [struct qstr]: [len] is a [u32], [name] points to the bytes. *)
Record qstr : Type := { name : list byte; len : Z }.

(** [struct dentry], reduced to the two fields the walk reads.  Nodes are
    referred to by address; [d_lock] only matters to concurrent writers and
    [prefetch] is a hint, neither has an effect in this sequential model. *)
Record dentry : Type := { d_parent : Z; d_name : qstr }.

(** [-ENAMETOOLONG], from the kernel's [errno.h]. *)
Definition ENAMETOOLONG : Z := 36.

(** A [char *] result: an offset from the caller's [buf], or [ERR_PTR(err)]. *)
Inductive pointer : Type :=
| Ptr (off : Z)
| ERR_PTR (err : Z).

(** The three objects [prepend] works on through its pointer arguments: the
    cursor [*buffer] (as an offset from [buf]), the counter [*buflen], and the
    bytes of the caller's buffer. *)
Record bufstate : Type := { buffer : Z; buflen : Z; mem : list byte }.

(** The string literals ["\0"] and ["/"], with their terminating NUL. *)
Definition lit_nul : list byte := [x00; x00].
Definition lit_slash : list byte := [x2f; x00].

Definition prepend (st : bufstate) (str : list byte) (namelen : Z)
  : exec (Z * bufstate) :=
  let buflen' := to_int (buflen st - namelen) in
  if buflen' <? 0 then
    Ret (- ENAMETOOLONG,
         {| buffer := buffer st; buflen := buflen'; mem := mem st |})
  else
    let buffer' := buffer st - namelen in
    mem' ← memcpy (mem st) buffer' str namelen;
    Ret (0, {| buffer := buffer'; buflen := buflen'; mem := mem' |}).

(** [name->len] is converted from [u32] to the [int] parameter. *)
Definition prepend_name (st : bufstate) (q : qstr) : exec (Z * bufstate) :=
  prepend st (name q) (to_int (len q)).

Definition deref (dc : gmap Z dentry) (p : Z) : exec dentry :=
  match dc !! p with
  | Some d => Ret d
  | None => Fault
  end.

(** [IS_ROOT(x)] is [(x == x->d_parent)]. *)
Definition IS_ROOT (dc : gmap Z dentry) (x : Z) : exec bool :=
  d ← deref dc x; Ret (x =? d_parent d).

(** The [while (!IS_ROOT(dentry))] loop; a [goto Elong] returns at once. *)
Fixpoint dentry_path_loop (dc : gmap Z dentry) (fuel : nat)
    (dentry : Z) (retval : Z) (st : bufstate) : exec (pointer * list byte) :=
  match fuel with
  | O => OutOfFuel
  | S fuel' =>
      root ← IS_ROOT dc dentry;
      if (root : bool) then Ret (Ptr retval, mem st)
      else
        d ← deref dc dentry;
        let parent := d_parent d in
        '(error, st1) ← prepend_name st (d_name d);
        if negb (error =? 0) then Ret (ERR_PTR (- ENAMETOOLONG), mem st1)
        else
          '(error', st2) ← prepend st1 lit_slash 1;
          if negb (error' =? 0) then Ret (ERR_PTR (- ENAMETOOLONG), mem st2)
          else dentry_path_loop dc fuel' parent (buffer st2) st2
  end.

(** [smith_dentry_path(dentry, buf, buflen)].  The result carries the final
    contents of the caller's buffer next to the returned pointer. *)
Definition smith_dentry_path (dc : gmap Z dentry) (fuel : nat)
    (dentry : Z) (buf : list byte) (buflen0 : Z) : exec (pointer * list byte) :=
  let st := {| buffer := buflen0; buflen := buflen0; mem := buf |} in
  '(_, st) ← prepend st lit_nul 1;
  if buflen st <? 1 then Ret (ERR_PTR (- ENAMETOOLONG), mem st)
  else
    let retval := buffer st - 1 in
    mem' ← store (mem st) retval x2f;
    dentry_path_loop dc fuel dentry retval
      {| buffer := buffer st; buflen := buflen st; mem := mem' |}.

(** *** What the walk is expected to produce *)

(** [chain_of dc d p]: the names met on the [d] parent steps from the node at
    [p] up to a root, leaf first; [None] when [p] is not [d] steps below a
    root. *)
Fixpoint chain_of (dc : gmap Z dentry) (d : nat) (p : Z) : option (list qstr) :=
  match dc !! p with
  | None => None
  | Some x =>
      match d with
      | O => if p =? d_parent x then Some [] else None
      | S d' =>
          if p =? d_parent x then None
          else cons (d_name x) <$> chain_of dc d' (d_parent x)
      end
  end.

(** The recorded length of a name is the number of its bytes. *)
Definition qstr_wf (q : qstr) : bool := len q =? Z.of_nat (length (name q)).

(** Total byte length [L] of the names. *)
Definition names_len (qs : list qstr) : Z := foldr (fun q acc => len q + acc) 0 qs.

(** ["/name1/name2/.../nameD"] for names given root first. *)
Definition path_string (names : list (list byte)) : list byte :=
  concat (map (fun n => x2f :: n) names).

(** The names of a leaf-first chain, root first. *)
Definition root_first (qs : list qstr) : list (list byte) := rev (map name qs).

(** The path of a node given its leaf-first chain: ["/"] for a root. *)
Definition full_path (qs : list qstr) : list byte :=
  match qs with
  | [] => [x2f]
  | _ => path_string (root_first qs)
  end.

(** The C string at [off] in [m]: the bytes before the first NUL. *)
Fixpoint until_nul (l : list byte) : option (list byte) :=
  match l with
  | [] => None
  | b :: l' =>
      if Byte.eqb b x00 then Some [] else cons b <$> until_nul l'
  end.

Definition c_string (m : list byte) (off : Z) : option (list byte) :=
  if off <? 0 then None else until_nul (drop (Z.to_nat off) m).

(** The [n] bytes of [m] from offset [off] on. *)
Definition segment (m : list byte) (off : Z) (n : nat) : list byte :=
  take n (drop (Z.to_nat off) m).

Definition nul_free (l : list byte) : bool :=
  forallb (fun b => negb (Byte.eqb b x00)) l.

(** The length a name may have for its [u32] length to fit the [int]
    parameter of [prepend]; the kernel keeps names far below it. *)
Definition len_fits_int (q : qstr) : bool := len q <=? INT_MAX.

(** A dentry cache in which every parent pointer leads to a node and every
    name is well formed.  Nothing is said about roots: the parent pointers
    may form a cycle. *)
Definition dcache_closed (dc : gmap Z dentry) : Prop :=
  map_Forall (fun _ x => is_Some (dc !! d_parent x)
                         /\ qstr_wf (d_name x) = true
                         /\ len_fits_int (d_name x) = true) dc.

(** ** Symbol resolver: [get_kallsyms_func], [smith_kallsyms_lookup_name] *)

(** What the module does to the rest of the kernel, in order. *)
Inductive kevent : Type :=
| EvRegisterKprobe (symbol_name : string)
| EvUnregisterKprobe (addr : Z)
| EvCall (fn : Z) (arg : string).

(** The kernel as the resolver sees it: what the [n]-th call of
    [register_kprobe] answers for a symbol (its return value and the
    [probe.addr] it fills in), what calling the code at an address with a
    name returns, and the exported [kallsyms_lookup_name] where there is one. *)
Record kernel : Type := {
  register_kprobe : nat -> string -> Z * Z;
  call_at : Z -> string -> Z;
  kallsyms_lookup_name : string -> Z
}.

(** The static [kallsyms_lookup_name_sym] (0 is the null pointer) and the
    history of calls made so far. *)
Record kstate : Type := {
  kallsyms_lookup_name_sym : Z;
  klog : list kevent
}.

Definition is_register (e : kevent) : bool :=
  match e with
  | EvRegisterKprobe _ => true
  | _ => false
  end.

(** The call-count probe on the registration facility. *)
Definition registrations (log : list kevent) : nat :=
  length (filter (fun e => is_register e = true) log).

Definition get_kallsyms_func (k : kernel) (log : list kevent)
  : Z * list kevent :=
  let symbol_name := "kallsyms_lookup_name"%string in
  let '(ret, probe_addr) := register_kprobe k (registrations log) symbol_name in
  let log := log ++ [EvRegisterKprobe symbol_name] in
  if negb (ret =? 0) then (0, log)
  else
    let addr := probe_addr in
    (addr, log ++ [EvUnregisterKprobe probe_addr]).

(** The [#if] that selects the kprobe-based variant. *)
Definition use_kprobe_lookup (cfg : build_config) : bool :=
  (KERNEL_VERSION 5 7 0 <=? LINUX_VERSION_CODE cfg)
  || (LINUX_VERSION_CODE cfg <? KERNEL_VERSION 2 6 33).

Definition smith_kallsyms_lookup_name (cfg : build_config) (k : kernel)
    (st : kstate) (nm : string) : Z * kstate :=
  if use_kprobe_lookup cfg then
    if kallsyms_lookup_name_sym st =? 0 then
      let '(sym, log) := get_kallsyms_func k (klog st) in
      if sym =? 0 then
        (0, {| kallsyms_lookup_name_sym := sym; klog := log |})
      else
        (call_at k sym nm,
         {| kallsyms_lookup_name_sym := sym; klog := log ++ [EvCall sym nm] |})
    else
      let sym := kallsyms_lookup_name_sym st in
      (call_at k sym nm,
       {| kallsyms_lookup_name_sym := sym; klog := klog st ++ [EvCall sym nm] |})
  else
    (kallsyms_lookup_name k nm, st).

(** A sequence of calls, each starting from the state the previous one left. *)
Fixpoint lookup_all (cfg : build_config) (k : kernel) (st : kstate)
    (names : list string) : list Z * kstate :=
  match names with
  | [] => ([], st)
  | nm :: rest =>
      let '(r, st1) := smith_kallsyms_lookup_name cfg k st nm in
      let '(rs, st2) := lookup_all cfg k st1 rest in
      (r :: rs, st2)
  end.

(** The state a call leaves when its registration attempt failed: the cache
    still null, one more [register_kprobe] in the history. *)
Definition after_failed_registration (st : kstate) : kstate :=
  {| kallsyms_lookup_name_sym := 0;
     klog := klog st ++ [EvRegisterKprobe "kallsyms_lookup_name"] |}.

(** ** Volume-identity locator: [smith_query_sb_uuid] *)

(** A [struct super_block] in memory: where it is and what it holds. *)
Record super_block : Type := { sb_addr : Z; sb_bytes : list byte }.

(** Kernel memory as a finite map from addresses to the bytes mapped there;
    [kmem_with sb] is the memory in which just the descriptor [sb] is
    mapped, its bytes laid out from its address on. *)
Definition kmem_with (sb : super_block) : gmap Z byte :=
  list_to_map (imap (fun i b => (sb_addr sb + Z.of_nat i, b)) (sb_bytes sb)).

(** The offset the preprocessor selects. *)
Definition sb_uuid_offset (cfg : build_config) : Z :=
  if LINUX_VERSION_CODE cfg <? KERNEL_VERSION 2 6 39
  then offsetof_super_block_s_dev cfg
  else offsetof_super_block_s_uuid cfg.

(** [smith_query_sb_uuid(sb)], run in the kernel memory [kmem].  The body is
    one addition on a 64-bit pointer, which wraps at [2^64]; it loads
    nothing from [kmem], so there is nothing that could fault. *)
Definition smith_query_sb_uuid (cfg : build_config) (kmem : gmap Z byte)
    (sb : Z) : exec Z :=
  if LINUX_VERSION_CODE cfg <? KERNEL_VERSION 2 6 39
  then Ret (u64 (sb + offsetof_super_block_s_dev cfg))
  else Ret (u64 (sb + offsetof_super_block_s_uuid cfg)).

(** *** Bookkeeping on the history of the resolver *)

Definition is_unregister (e : kevent) : bool :=
  match e with
  | EvUnregisterKprobe _ => true
  | _ => false
  end.

Definition unregistrations (log : list kevent) : nat :=
  length (filter (fun e => is_unregister e = true) log).

(** The addresses the module called as a function. *)
Definition called_addresses (log : list kevent) : list Z :=
  omap (fun e => match e with EvCall fn _ => Some fn | _ => None end) log.

(** Did the [i]-th registration of the resolver's probe succeed? *)
Definition registration_ok (k : kernel) (i : nat) : bool :=
  (register_kprobe k i "kallsyms_lookup_name").1 =? 0.

(** How many of the first [n] registrations succeeded. *)
Definition successes (k : kernel) (n : nat) : nat :=
  length (filter (fun i => registration_ok k i = true) (seq 0 n)).

(** [a] is an address that one of the first [n] registrations succeeded
    with. *)
Definition reported (k : kernel) (n : nat) (a : Z) : bool :=
  existsb (fun i => registration_ok k i
                    && ((register_kprobe k i "kallsyms_lookup_name").2 =? a))
          (seq 0 n).

(** Every probe that was registered with success has been unregistered. *)
Definition kprobes_balanced (k : kernel) (st : kstate) : Prop :=
  unregistrations (klog st) = successes k (registrations (klog st)).

(** The cached pointer, when set, and every address called so far were
    reported by a successful registration. *)
Definition addresses_reported (k : kernel) (st : kstate) : Prop :=
  (kallsyms_lookup_name_sym st = 0
   \/ reported k (registrations (klog st)) (kallsyms_lookup_name_sym st) = true)
  /\ Forall (fun a => reported k (registrations (klog st)) a = true)
            (called_addresses (klog st)).

(** ** String copy: [smith_strcpy] *)

(** The [while] loop stores [*src++] to [*dest++] and goes on as long as the
    byte just stored is not NUL.  Both pointers are offsets into one memory,
    so that a copy between overlapping regions behaves as in C. *)
Fixpoint strcpy_loop (fuel : nat) (m : list byte) (dest src : Z)
  : exec (list byte) :=
  match fuel with
  | O => OutOfFuel
  | S fuel' =>
      c ← load m src;
      m' ← store m dest c;
      if negb (Byte.eqb c x00) then strcpy_loop fuel' m' (dest + 1) (src + 1)
      else Ret m'
  end.

Definition smith_strcpy (fuel : nat) (m : list byte) (dest src : Z)
  : exec (Z * list byte) :=
  let tmp := dest in
  m' ← strcpy_loop fuel m dest src;
  Ret (tmp, m').

(** ** Concrete builds and inputs used in the examples below *)

(** An x86-64 build for Linux 5.10: kprobe-based resolver, signed [char]. *)
Definition build_x86_5_10 : build_config := {|
  LINUX_VERSION_CODE := KERNEL_VERSION 5 10 0;
  char_is_signed := true;
  offsetof_super_block_s_dev := 16;
  offsetof_super_block_s_uuid := 1000
|}.

(** An arm64 build for Linux 4.19: direct resolver, unsigned [char]. *)
Definition build_arm64_4_19 : build_config := {|
  LINUX_VERSION_CODE := KERNEL_VERSION 4 19 0;
  char_is_signed := false;
  offsetof_super_block_s_dev := 16;
  offsetof_super_block_s_uuid := 1000
|}.

Definition mk_qstr (s : list byte) : qstr :=
  {| name := s; len := Z.of_nat (length s) |}.

(** The chain [/] <- [usr] <- [bin] at addresses 100, 200, 300. *)
Definition dcache_usr_bin : gmap Z dentry :=
  <[100 := {| d_parent := 100; d_name := mk_qstr [x2f] |}]>
  (<[200 := {| d_parent := 100; d_name := mk_qstr [x75; x73; x72] |}]>
  (<[300 := {| d_parent := 200; d_name := mk_qstr [x62; x69; x6e] |}]> ∅)).

(** A kernel whose first [register_kprobe] fails with [-EINVAL] and whose
    later ones find the routine at [0xffffffff81234560]; calling an address
    is made visible by a result that depends on it and on the name. *)
Definition kernel_flaky : kernel := {|
  register_kprobe := fun n _ =>
    match n with
    | O => (-22, 0)
    | S _ => (0, 0xffffffff81234560)
    end;
  call_at := fun fn nm => fn + Z.of_nat (String.length nm);
  kallsyms_lookup_name := fun _ => 0
|}.

Definition kstate_init : kstate :=
  {| kallsyms_lookup_name_sym := 0; klog := [] |}.

(** The state after two calls on [kernel_flaky]: the second one resolved. *)
Definition kstate_resolved : kstate :=
  (smith_kallsyms_lookup_name build_x86_5_10 kernel_flaky
     (smith_kallsyms_lookup_name build_x86_5_10 kernel_flaky
        kstate_init "sys_call_table").2 "sys_call_table").2.

Definition sb_example (fill : byte) : super_block :=
  {| sb_addr := 0xffff888000100000; sb_bytes := replicate 2048 fill |}.

(** A kernel whose registration succeeds but fills in a null address. *)
Definition kernel_null_addr : kernel := {|
  register_kprobe := fun _ _ => (0, 0);
  call_at := fun fn nm => fn + Z.of_nat (String.length nm);
  kallsyms_lookup_name := fun _ => 0
|}.

(** Two nodes that are each other's parent: a chain without a root. *)
Definition dcache_cycle : gmap Z dentry :=
  <[100 := {| d_parent := 200; d_name := mk_qstr [x61] |}]>
  (<[200 := {| d_parent := 100; d_name := mk_qstr [x62] |}]> ∅).

(** Eight bytes of memory holding the string ["ab"] at offset 1. *)
Definition mem_ab : list byte := [xff; x61; x62; x00; xff; xff; xff; xff].

(** * Properties *)

(** ** 64-bit words *)

Lemma u64_is_u64 z : is_u64 (u64 z).
Proof. unfold is_u64, u64. apply Z.mod_pos_bound. lia. Qed.

Lemma u64_small z : is_u64 z -> u64 z = z.
Proof. unfold is_u64, u64. intros H. apply Z.mod_small. exact H. Qed.

Lemma is_u64_high_bits z n : is_u64 z -> 64 <= n -> Z.testbit z n = false.
Proof.
  intros Hz Hn. rewrite <- (u64_small z Hz). unfold u64.
  apply Z.mod_pow2_bits_high. lia.
Qed.

Lemma high_bits_is_u64 z :
  0 <= z -> (forall n, 64 <= n -> Z.testbit z n = false) -> is_u64 z.
Proof.
  intros Hz Hbits. replace z with (u64 z); [apply u64_is_u64|].
  unfold u64. apply Z.bits_inj'. intros n Hn.
  destruct (Z.lt_ge_cases n 64) as [Hlt|Hge].
  - apply Z.mod_pow2_bits_low. exact Hlt.
  - rewrite Z.mod_pow2_bits_high by lia. symmetry. apply Hbits. exact Hge.
Qed.

Lemma lxor_is_u64 x y : is_u64 x -> is_u64 y -> is_u64 (Z.lxor x y).
Proof.
  intros Hx Hy. apply high_bits_is_u64.
  - apply Z.lxor_nonneg. unfold is_u64 in *. lia.
  - intros n Hn. rewrite Z.lxor_spec.
    rewrite (is_u64_high_bits x n Hx Hn), (is_u64_high_bits y n Hy Hn).
    reflexivity.
Qed.

Lemma shiftr_is_u64 x k : 0 <= k -> is_u64 x -> is_u64 (Z.shiftr x k).
Proof.
  intros Hk Hx. apply high_bits_is_u64.
  - apply Z.shiftr_nonneg. unfold is_u64 in Hx. lia.
  - intros n Hn. rewrite Z.shiftr_spec by lia.
    apply is_u64_high_bits; [exact Hx | lia].
Qed.

(** [h ^= h >> 47] undoes itself on 64-bit words, since [2 * 47 >= 64]. *)
Lemma xorshift47_involutive x :
  is_u64 x ->
  Z.lxor (Z.lxor x (Z.shiftr x 47)) (Z.shiftr (Z.lxor x (Z.shiftr x 47)) 47) = x.
Proof.
  intros Hx. apply Z.bits_inj'. intros n Hn.
  rewrite !Z.lxor_spec, !Z.shiftr_spec, !Z.lxor_spec, !Z.shiftr_spec by lia.
  rewrite (is_u64_high_bits x (n + 47 + 47) Hx) by lia.
  destruct (Z.testbit x n), (Z.testbit x (n + 47)); reflexivity.
Qed.

Lemma xorshift47_inj x y :
  is_u64 x -> is_u64 y ->
  Z.lxor x (Z.shiftr x 47) = Z.lxor y (Z.shiftr y 47) -> x = y.
Proof.
  intros Hx Hy E.
  rewrite <- (xorshift47_involutive x Hx), <- (xorshift47_involutive y Hy).
  rewrite E. reflexivity.
Qed.

(** Multiplying by the odd constant is undone by multiplying by its inverse. *)
Lemma hash_mult_cancel x : is_u64 x -> u64 (u64 (x * hash_mult) * hash_mult_inv) = x.
Proof.
  intros Hx. unfold u64.
  rewrite Z.mul_mod_idemp_l by lia.
  rewrite <- Z.mul_assoc, <- Z.mul_mod_idemp_r by lia.
  replace ((hash_mult * hash_mult_inv) mod 2 ^ 64) with 1 by (vm_compute; reflexivity).
  rewrite Z.mul_1_r. apply Z.mod_small. exact Hx.
Qed.

Lemma hash_mult_inj x y :
  is_u64 x -> is_u64 y -> u64 (x * hash_mult) = u64 (y * hash_mult) -> x = y.
Proof.
  intros Hx Hy E.
  rewrite <- (hash_mult_cancel x Hx), <- (hash_mult_cancel y Hy), E.
  reflexivity.
Qed.

Lemma lxor_cancel_l a b c : Z.lxor a b = Z.lxor a c -> b = c.
Proof.
  intros E.
  assert (E' : Z.lxor a (Z.lxor a b) = Z.lxor a (Z.lxor a c)) by (rewrite E; reflexivity).
  rewrite <- !Z.lxor_assoc, Z.lxor_nilpotent, !Z.lxor_0_l in E'. exact E'.
Qed.

Lemma lxor_cancel_r a b c : Z.lxor b a = Z.lxor c a -> b = c.
Proof. rewrite !(Z.lxor_comm _ a). apply lxor_cancel_l. Qed.

(** ** The fingerprint hasher *)

Lemma byte_val_range b : 0 <= byte_val b < 256.
Proof.
  unfold byte_val. pose proof (Byte.to_N_bounded b) as H. lia.
Qed.

Lemma byte_val_inj b1 b2 : byte_val b1 = byte_val b2 -> b1 = b2.
Proof.
  unfold byte_val. intros E. apply N2Z.inj in E.
  pose proof (Byte.of_to_N b1) as H1. pose proof (Byte.of_to_N b2) as H2.
  rewrite E in H1. congruence.
Qed.

Lemma char_to_u64_widened cfg c : char_to_u64 cfg c = widened_byte cfg c.
Proof.
  unfold char_to_u64, widened_byte, u64.
  pose proof (byte_val_range c) as Hc.
  destruct (char_is_signed cfg && (128 <=? byte_val c)) eqn:E.
  - apply andb_true_iff in E as [_ E]. apply Z.leb_le in E.
    symmetry. apply (Z.mod_unique_pos _ _ (-1)); lia.
  - apply Z.mod_small. lia.
Qed.

Lemma widened_byte_is_u64 cfg c : is_u64 (widened_byte cfg c).
Proof.
  rewrite <- char_to_u64_widened. unfold char_to_u64.
  destruct (_ && _); apply u64_is_u64.
Qed.

Lemma widened_byte_inj cfg c1 c2 :
  widened_byte cfg c1 = widened_byte cfg c2 -> c1 = c2.
Proof.
  unfold widened_byte. intros E. apply byte_val_inj.
  pose proof (byte_val_range c1). pose proof (byte_val_range c2).
  destruct (char_is_signed cfg); cbn [andb] in E;
    destruct (128 <=? byte_val c1) eqn:E1, (128 <=? byte_val c2) eqn:E2;
    try apply Z.leb_le in E1; try apply Z.leb_gt in E1;
    try apply Z.leb_le in E2; try apply Z.leb_gt in E2; lia.
Qed.

(** The loop body is the specification's round on the widened byte. *)
Lemma hash_round_spec cfg c h :
  hash_round cfg c h = spec_round (widened_byte cfg) h c.
Proof.
  unfold hash_round, spec_round. rewrite char_to_u64_widened. reflexivity.
Qed.

Lemma spec_round_byte_val cfg h c :
  char_is_signed cfg = false \/ byte_val c < 128 ->
  spec_round (widened_byte cfg) h c = spec_round byte_val h c.
Proof.
  intros H. unfold spec_round, widened_byte.
  destruct (char_is_signed cfg && (128 <=? byte_val c)) eqn:E; [|reflexivity].
  apply andb_true_iff in E as [E1 E2]. apply Z.leb_le in E2.
  destruct H as [H|H]; [congruence | lia].
Qed.

Lemma spec_round_is_u64 cfg h c : is_u64 (spec_round (widened_byte cfg) h c).
Proof.
  unfold spec_round.
  apply lxor_is_u64; [|apply shiftr_is_u64; [lia|]]; apply u64_is_u64.
Qed.

Lemma spec_round_inj_acc cfg c h1 h2 :
  is_u64 h1 -> is_u64 h2 ->
  spec_round (widened_byte cfg) h1 c = spec_round (widened_byte cfg) h2 c ->
  h1 = h2.
Proof.
  intros H1 H2 E. unfold spec_round in E.
  pose proof (widened_byte_is_u64 cfg c) as Hc.
  apply xorshift47_inj in E; try apply u64_is_u64.
  apply hash_mult_inj in E; try (apply lxor_is_u64; assumption).
  apply lxor_cancel_r in E. exact E.
Qed.

Lemma spec_round_inj_byte cfg c1 c2 h :
  is_u64 h ->
  spec_round (widened_byte cfg) h c1 = spec_round (widened_byte cfg) h c2 ->
  c1 = c2.
Proof.
  intros Hh E. unfold spec_round in E.
  pose proof (widened_byte_is_u64 cfg c1) as Hc1.
  pose proof (widened_byte_is_u64 cfg c2) as Hc2.
  apply xorshift47_inj in E; try apply u64_is_u64.
  apply hash_mult_inj in E; try (apply lxor_is_u64; assumption).
  apply lxor_cancel_l in E. apply (widened_byte_inj cfg). exact E.
Qed.

Lemma hash_seed_is_u64 : is_u64 hash_seed.
Proof. unfold is_u64, hash_seed. lia. Qed.

Lemma fold_round_is_u64 cfg l h :
  is_u64 h -> is_u64 (fold_left (spec_round (widened_byte cfg)) l h).
Proof.
  revert h. induction l as [|c l IH]; intros h Hh; cbn [fold_left].
  - exact Hh.
  - apply IH. apply spec_round_is_u64.
Qed.

(** Two different accumulators stay different over any common tail. *)
Lemma fold_round_inj cfg l h1 h2 :
  is_u64 h1 -> is_u64 h2 -> h1 <> h2 ->
  fold_left (spec_round (widened_byte cfg)) l h1
  <> fold_left (spec_round (widened_byte cfg)) l h2.
Proof.
  revert h1 h2. induction l as [|c l IH]; intros h1 h2 H1 H2 Hne; cbn [fold_left].
  - exact Hne.
  - apply IH; try apply spec_round_is_u64.
    intros E. apply Hne. apply (spec_round_inj_acc cfg c); assumption.
Qed.

(** The [for] loop started at index [i] folds the round over the next [n]
    bytes, provided they are there to be read. *)
Lemma hash_loop_fold cfg s (n i : nat) h :
  (i + n <= length s)%nat ->
  for_loop n (Z.of_nat i)
    (fun i h => c ← load s i; Ret (hash_round cfg c h)) h
  = Ret (fold_left (spec_round (widened_byte cfg)) (take n (drop i s)) h).
Proof.
  revert i h. induction n as [|n IH]; intros i h Hlen; cbn [for_loop].
  - rewrite take_0. reflexivity.
  - destruct (lookup_lt_is_Some_2 s i) as [c Hc]; [lia|].
    unfold load. destruct (Z.ltb_spec (Z.of_nat i) 0) as [?|_]; [lia|].
    rewrite Nat2Z.id, Hc. cbn.
    replace (Z.of_nat i + 1) with (Z.of_nat (S i)) by lia.
    rewrite IH by lia.
    rewrite (drop_S s c i Hc). cbn [take fold_left].
    rewrite hash_round_spec. reflexivity.
Qed.

Lemma hash_murmur_OAAT64_fold cfg s n :
  0 <= n <= Z.of_nat (length s) ->
  hash_murmur_OAAT64 cfg s n = Ret (spec_hash_widened cfg s (Z.to_nat n)).
Proof.
  intros Hn. unfold hash_murmur_OAAT64, for_range, spec_hash_widened.
  rewrite Z.sub_0_r. change 0 with (Z.of_nat 0).
  rewrite hash_loop_fold by lia. rewrite drop_0. reflexivity.
Qed.

Lemma hash_murmur_OAAT64_nonpos cfg s n :
  n <= 0 -> hash_murmur_OAAT64 cfg s n = Ret hash_seed.
Proof.
  intros Hn. unfold hash_murmur_OAAT64, for_range.
  replace (Z.to_nat (n - 0)) with O by lia. reflexivity.
Qed.

Lemma spec_hash_widened_ascii cfg s n :
  char_is_signed cfg = false \/ ascii_only (take n s) = true ->
  spec_hash_widened cfg s n = spec_hash s n.
Proof.
  unfold spec_hash_widened, spec_hash.
  generalize 525201411107845655. generalize (take n s). clear s n.
  intros l. induction l as [|c l IH]; intros h H; cbn [fold_left].
  - reflexivity.
  - rewrite spec_round_byte_val.
    + apply IH. destruct H as [H|H]; [left; exact H|right].
      cbn in H. apply andb_true_iff in H as [_ H]. exact H.
    + destruct H as [H|H]; [left; exact H|right].
      cbn in H. apply andb_true_iff in H as [H _]. apply Z.ltb_lt in H. exact H.
Qed.

(** The model run on short inputs; the values agree with the C function
    compiled for a signed and for an unsigned [char]. *)
Example hash_ab :
  hash_murmur_OAAT64 build_arm64_4_19 [x61; x62] 2 = Ret 18153155064738137583
  /\ hash_murmur_OAAT64 build_x86_5_10 [x61; x62] 2 = Ret 18153155064738137583.
Proof. split; reflexivity. Qed.

Example hash_0x80 :
  hash_murmur_OAAT64 build_arm64_4_19 [x80] 1 = Ret 2132518880678432723
  /\ hash_murmur_OAAT64 build_x86_5_10 [x80] 1 = Ret 7070579083025958876.
Proof. split; reflexivity. Qed.

Example hash_past_the_end :
  hash_murmur_OAAT64 build_x86_5_10 [x61] 2 = Fault.
Proof. reflexivity. Qed.

(** C2, as stated, at a signed-[char] build: the byte 0x80 is sign-extended
    before the XOR, so the result is not the one obtained by XORing the byte
    0x80 itself into the accumulator. *)
Lemma hash_byte_0x80_signed_char :
  hash_murmur_OAAT64 build_x86_5_10 [x80] 1 <> Ret (spec_hash [x80] 1).
Proof. vm_compute. discriminate. Qed.

(** C2 (amended): for [n] readable bytes the hasher returns the fold, from the
    seed, of "XOR the widened byte, multiply, XOR with the shift by 47" over
    the first [n] bytes, modulo [2^64]; the widened byte is the byte itself
    when [char] is unsigned or the byte is below 0x80, and the byte
    sign-extended to 64 bits otherwise.  The result depends on the first [n]
    bytes only, and for [n = 0] it is the seed. *)
Theorem hash_murmur_OAAT64_spec cfg (s : list byte) (n : Z) :
  0 <= n <= Z.of_nat (length s) ->
  hash_murmur_OAAT64 cfg s n = Ret (spec_hash_widened cfg s (Z.to_nat n))
  /\ (char_is_signed cfg = false \/ ascii_only (take (Z.to_nat n) s) = true ->
      hash_murmur_OAAT64 cfg s n = Ret (spec_hash s (Z.to_nat n)))
  /\ (forall s' : list byte,
        take (Z.to_nat n) s' = take (Z.to_nat n) s ->
        hash_murmur_OAAT64 cfg s' n = hash_murmur_OAAT64 cfg s n)
  /\ (n = 0 -> hash_murmur_OAAT64 cfg s n = Ret 525201411107845655).
Proof.
  intros Hn. repeat split.
  - apply hash_murmur_OAAT64_fold. exact Hn.
  - intros H. rewrite hash_murmur_OAAT64_fold by exact Hn.
    rewrite spec_hash_widened_ascii by exact H. reflexivity.
  - intros s' Hs'.
    assert (Hlen : (Z.to_nat n <= length s')%nat).
    { apply (f_equal length) in Hs'. rewrite !length_take in Hs'. lia. }
    rewrite !hash_murmur_OAAT64_fold by lia.
    unfold spec_hash_widened. rewrite Hs'. reflexivity.
  - intros ->. apply hash_murmur_OAAT64_nonpos. lia.
Qed.

Lemma hash_murmur_OAAT64_spec_witness :
  0 <= 2 <= Z.of_nat (length [x80; x61; x62])
  /\ hash_murmur_OAAT64 build_x86_5_10 [x80; x61; x62] 2
     = Ret (spec_hash_widened build_x86_5_10 [x80; x61; x62] (Z.to_nat 2)).
Proof.
  assert (H : 0 <= 2 <= Z.of_nat (length [x80; x61; x62])) by (cbn; lia).
  split; [exact H|].
  exact (proj1 (hash_murmur_OAAT64_spec build_x86_5_10 [x80; x61; x62] 2 H)).
Defined.

(** C4: two inputs of the same length that differ in exactly one byte never
    have the same hash. *)
Theorem hash_single_byte_change cfg (s1 s2 : list byte) (i : nat) :
  length s1 = length s2 ->
  (i < length s1)%nat ->
  s1 !! i <> s2 !! i ->
  (forall j : nat, j <> i -> s1 !! j = s2 !! j) ->
  hash_murmur_OAAT64 cfg s1 (Z.of_nat (length s1))
  <> hash_murmur_OAAT64 cfg s2 (Z.of_nat (length s2)).
Proof.
  intros Hlen Hi Hne Hsame.
  destruct (lookup_lt_is_Some_2 s1 i Hi) as [b1 Hb1].
  destruct (lookup_lt_is_Some_2 s2 i) as [b2 Hb2]; [lia|].
  assert (Hpre : take i s1 = take i s2).
  { apply list_eq. intros j. destruct (decide (j < i)%nat) as [Hj|Hj].
    - rewrite !lookup_take_lt by exact Hj. apply Hsame. lia.
    - rewrite !lookup_take_ge by lia. reflexivity. }
  assert (Hpost : drop (S i) s1 = drop (S i) s2).
  { apply list_eq. intros j. rewrite !lookup_drop. apply Hsame. lia. }
  rewrite !hash_murmur_OAAT64_fold by lia.
  unfold spec_hash_widened. rewrite !Nat2Z.id, !firstn_all.
  rewrite <- (take_drop_middle s1 i b1 Hb1), <- (take_drop_middle s2 i b2 Hb2).
  rewrite <- Hpre, <- Hpost, !fold_left_app. cbn [fold_left].
  intros E. injection E as E. revert E.
  pose proof (fold_round_is_u64 cfg (take i s1) _ hash_seed_is_u64) as Hh.
  apply fold_round_inj; try apply spec_round_is_u64.
  intros E. apply (spec_round_inj_byte cfg) in E; [|exact Hh].
  apply Hne. rewrite Hb1, Hb2, E. reflexivity.
Qed.

Lemma hash_single_byte_change_witness :
  hash_murmur_OAAT64 build_x86_5_10 [x2f; x61; x62] (Z.of_nat (length [x2f; x61; x62]))
  <> hash_murmur_OAAT64 build_x86_5_10 [x2f; xe1; x62] (Z.of_nat (length [x2f; xe1; x62])).
Proof.
  apply (hash_single_byte_change build_x86_5_10 [x2f; x61; x62] [x2f; xe1; x62] 1).
  - reflexivity.
  - cbn. lia.
  - cbn. discriminate.
  - intros [|[|[|j]]] Hj; try reflexivity. lia.
Defined.

(** C10: for every length [n <= 0], negative ones included, the hasher reads
    no byte - the result does not depend on what, if anything, is readable at
    [s] - and returns the seed 525201411107845655. *)
Theorem hash_murmur_OAAT64_nonpositive_len cfg (s : list byte) (n : Z) :
  n <= 0 ->
  hash_murmur_OAAT64 cfg s n = Ret 525201411107845655
  /\ hash_murmur_OAAT64 cfg [] n = Ret 525201411107845655.
Proof.
  intros Hn. split; apply hash_murmur_OAAT64_nonpos; exact Hn.
Qed.

Lemma hash_murmur_OAAT64_nonpositive_len_witness :
  -3 <= 0
  /\ hash_murmur_OAAT64 build_x86_5_10 [x61] (-3) = Ret 525201411107845655.
Proof.
  assert (H : -3 <= 0) by lia.
  split; [exact H|].
  exact (proj1 (hash_murmur_OAAT64_nonpositive_len build_x86_5_10 [x61] (-3) H)).
Defined.

(** ** The path reconstructor *)

Lemma to_int_small z : INT_MIN <= z <= INT_MAX -> to_int z = z.
Proof.
  unfold to_int, INT_MIN, INT_MAX. intros H.
  rewrite Z.mod_small by lia. lia.
Qed.

(** A copy that ends where [pre] ends replaces the tail of [pre]. *)
Lemma memcpy_tail (pre post src rest : list byte) (off n : Z) :
  n = Z.of_nat (length src) ->
  0 <= off ->
  off + n = Z.of_nat (length pre) ->
  memcpy (pre ++ post) off (src ++ rest) n
  = Ret (take (Z.to_nat off) pre ++ src ++ post).
Proof.
  intros Hn Hoff Hend. unfold memcpy.
  rewrite !length_app.
  destruct (Z.leb_spec 0 n); [|lia].
  destruct (Z.leb_spec n (Z.of_nat (length src + length rest))); [|lia].
  destruct (Z.leb_spec 0 off); [|lia].
  destruct (Z.leb_spec (off + n) (Z.of_nat (length pre + length post))); [|lia].
  cbn [andb]. f_equal.
  rewrite take_app_le by lia.
  rewrite (take_app_length' src rest) by lia.
  rewrite (drop_app_length' pre post) by lia.
  reflexivity.
Qed.

Lemma store_tail (pre post : list byte) (off : Z) (c : byte) :
  0 <= off -> off + 1 = Z.of_nat (length pre) ->
  store (pre ++ post) off c = Ret (take (Z.to_nat off) pre ++ [c] ++ post).
Proof.
  intros Hoff Hend. unfold store. rewrite length_app.
  destruct (Z.leb_spec 0 off); [|lia].
  destruct (Z.ltb_spec off (Z.of_nat (length pre + length post))); [|lia].
  cbn [andb]. f_equal.
  rewrite insert_app_l by lia.
  destruct (lookup_lt_is_Some_2 pre (Z.to_nat off)) as [x Hx]; [lia|].
  rewrite <- (take_drop_middle pre (Z.to_nat off) x Hx) at 1.
  rewrite (drop_ge pre (S (Z.to_nat off))) by lia.
  rewrite insert_app_r_alt by (rewrite length_take; lia).
  rewrite length_take.
  replace (Z.to_nat off - Z.to_nat off `min` length pre)%nat with O by lia.
  cbn. rewrite <- app_assoc. reflexivity.
Qed.

(** [prepend] with room left: the cursor and the counter go down by
    [namelen] and the bytes land just below the old cursor. *)
Lemma prepend_ok (st : bufstate) (pre post src rest : list byte) (n : Z) :
  mem st = pre ++ post ->
  buffer st = Z.of_nat (length pre) ->
  n = Z.of_nat (length src) ->
  n <= buflen st <= buffer st ->
  buflen st <= INT_MAX ->
  prepend st (src ++ rest) n
  = Ret (0, {| buffer := buffer st - n; buflen := buflen st - n;
               mem := take (Z.to_nat (buffer st - n)) pre ++ src ++ post |}).
Proof.
  intros Hmem Hbuf Hn Hroom Hmax. unfold prepend.
  rewrite to_int_small by (unfold INT_MIN, INT_MAX in *; lia).
  destruct (Z.ltb_spec (buflen st - n) 0); [lia|].
  rewrite Hmem, (memcpy_tail pre post src rest) by lia.
  reflexivity.
Qed.

(** [prepend] without room: the counter goes negative, nothing is written. *)
Lemma prepend_elong (st : bufstate) (str : list byte) (n : Z) :
  INT_MIN <= buflen st - n < 0 ->
  prepend st str n
  = Ret (- ENAMETOOLONG,
         {| buffer := buffer st; buflen := buflen st - n; mem := mem st |}).
Proof.
  intros H. unfold prepend.
  rewrite to_int_small by (unfold INT_MIN, INT_MAX in *; lia).
  destruct (Z.ltb_spec (buflen st - n) 0); [reflexivity|lia].
Qed.

Lemma names_len_nonneg qs :
  forallb qstr_wf qs = true -> 0 <= names_len qs.
Proof.
  induction qs as [|q qs IH]; cbn; [lia|].
  intros H. apply andb_true_iff in H as [Hq Hqs].
  unfold qstr_wf in Hq. apply Z.eqb_eq in Hq. specialize (IH Hqs).
  unfold names_len in IH. lia.
Qed.

Lemma chain_of_length dc d p qs : chain_of dc d p = Some qs -> length qs = d.
Proof.
  revert p qs. induction d as [|d IH]; intros p qs; cbn.
  - destruct (dc !! p) as [x|]; [|discriminate].
    destruct (p =? d_parent x); [|discriminate]. intros [= <-]. reflexivity.
  - destruct (dc !! p) as [x|]; [|discriminate].
    destruct (p =? d_parent x); [discriminate|].
    destruct (chain_of dc d (d_parent x)) as [qs'|] eqn:E; [|discriminate].
    cbn. intros [= <-]. cbn. f_equal. apply (IH _ _ E).
Qed.

Lemma path_string_snoc names n :
  path_string (names ++ [n]) = path_string names ++ x2f :: n.
Proof.
  unfold path_string. rewrite map_app, concat_app. cbn.
  rewrite app_nil_r. reflexivity.
Qed.

Lemma root_first_cons q qs : root_first (q :: qs) = root_first qs ++ [name q].
Proof. reflexivity. Qed.

Lemma path_string_length qs :
  forallb qstr_wf qs = true ->
  Z.of_nat (length (path_string (root_first qs)))
  = names_len qs + Z.of_nat (length qs).
Proof.
  induction qs as [|q qs IH]; [reflexivity|].
  cbn [forallb]. intros H. apply andb_true_iff in H as [Hq Hqs].
  rewrite root_first_cons, path_string_snoc, length_app. cbn [length names_len foldr].
  unfold qstr_wf in Hq. apply Z.eqb_eq in Hq. specialize (IH Hqs).
  unfold names_len in IH. lia.
Qed.

Lemma prepend_name_ok (st : bufstate) (pre post : list byte) (q : qstr) :
  qstr_wf q = true ->
  mem st = pre ++ post ->
  buffer st = Z.of_nat (length pre) ->
  len q <= buflen st <= buffer st ->
  buflen st <= INT_MAX ->
  prepend_name st q
  = Ret (0, {| buffer := buffer st - len q; buflen := buflen st - len q;
               mem := take (Z.to_nat (buffer st - len q)) pre ++ name q ++ post |}).
Proof.
  intros Hq Hmem Hbuf Hroom Hmax. unfold prepend_name.
  unfold qstr_wf in Hq. apply Z.eqb_eq in Hq.
  rewrite to_int_small by (unfold INT_MIN, INT_MAX in *; lia).
  rewrite <- (app_nil_r (name q)) at 1.
  apply prepend_ok; assumption.
Qed.

Lemma prepend_slash_ok (st : bufstate) (pre post : list byte) :
  mem st = pre ++ post ->
  buffer st = Z.of_nat (length pre) ->
  1 <= buflen st <= buffer st ->
  buflen st <= INT_MAX ->
  prepend st lit_slash 1
  = Ret (0, {| buffer := buffer st - 1; buflen := buflen st - 1;
               mem := take (Z.to_nat (buffer st - 1)) pre ++ [x2f] ++ post |}).
Proof.
  intros Hmem Hbuf Hroom Hmax.
  apply (prepend_ok st pre post [x2f] [x00]); auto.
Qed.

(** One step of the walk at a node that is not a root. *)
Lemma chain_of_step dc d p qs :
  chain_of dc (S d) p = Some qs ->
  exists x qs', dc !! p = Some x /\ (p =? d_parent x) = false
    /\ qs = d_name x :: qs' /\ chain_of dc d (d_parent x) = Some qs'.
Proof.
  cbn. destruct (dc !! p) as [x|]; [|discriminate].
  destruct (p =? d_parent x) eqn:E; [discriminate|].
  destruct (chain_of dc d (d_parent x)) as [qs'|] eqn:E'; [|discriminate].
  cbn. intros [= <-]. exists x, qs'. repeat split; first [reflexivity | assumption].
Qed.

Lemma chain_of_root dc p qs :
  chain_of dc O p = Some qs ->
  exists x, dc !! p = Some x /\ (p =? d_parent x) = true /\ qs = [].
Proof.
  cbn. destruct (dc !! p) as [x|]; [|discriminate].
  destruct (p =? d_parent x) eqn:E; [|discriminate].
  intros [= <-]. exists x. repeat split; first [reflexivity | assumption].
Qed.

(** The walk with enough room: the names are laid out root first below the
    bytes that were already there. *)
Lemma dentry_path_loop_ok dc (d : nat) :
  forall (fuel : nat) (p retval : Z) (qs : list qstr) (st : bufstate)
         (pre post : list byte),
  chain_of dc d p = Some qs ->
  forallb qstr_wf qs = true ->
  mem st = pre ++ post ->
  buffer st = Z.of_nat (length pre) ->
  0 <= buflen st <= buffer st ->
  buflen st <= INT_MAX ->
  names_len qs + Z.of_nat d <= buflen st ->
  (d < fuel)%nat ->
  dentry_path_loop dc fuel p retval st
  = Ret (Ptr (match d with
              | O => retval
              | S _ => buffer st - (names_len qs + Z.of_nat d)
              end),
         take (Z.to_nat (buffer st - (names_len qs + Z.of_nat d))) pre
           ++ path_string (root_first qs) ++ post).
Proof.
  induction d as [|d IH];
    intros fuel p retval qs st pre post Hchain Hwf Hmem Hbuf Hroom Hmax Hneed Hfuel;
    (destruct fuel as [|fuel]; [lia|]); cbn [dentry_path_loop].
  - apply chain_of_root in Hchain as (x & Hx & Hroot & ->).
    unfold IS_ROOT, deref. rewrite Hx. cbn. rewrite Hroot. cbn.
    rewrite take_ge by lia. rewrite Hmem. reflexivity.
  - apply chain_of_step in Hchain as (x & qs' & Hx & Hroot & -> & Hchain).
    cbn [forallb] in Hwf. apply andb_true_iff in Hwf as [Hq Hwf].
    pose proof (names_len_nonneg qs' Hwf) as Hpos.
    assert (Hlen : len (d_name x) = Z.of_nat (length (name (d_name x)))).
    { unfold qstr_wf in Hq. apply Z.eqb_eq in Hq. exact Hq. }
    cbn [names_len foldr] in *. fold (names_len qs') in *.
    unfold IS_ROOT, deref. rewrite Hx. cbn. rewrite Hroot. cbn.
    rewrite (prepend_name_ok st pre post) by (auto; lia). cbn.
    erewrite prepend_slash_ok;
      [ | cbn [mem]; reflexivity | cbn [buffer]; rewrite length_take; lia
        | cbn [buflen buffer]; lia | cbn [buflen]; lia ].
    cbn.
    erewrite IH;
      [ | exact Hchain | exact Hwf | cbn [mem]; reflexivity
        | cbn [buffer]; rewrite length_take, length_take; lia
        | cbn [buflen buffer]; lia | cbn [buflen]; lia | cbn [buflen]; lia | lia ].
    cbn [buffer]. f_equal. f_equal.
    + destruct d as [|d]; [|f_equal; lia].
      apply chain_of_length in Hchain. destruct qs'; [|discriminate].
      cbn. f_equal. lia.
    + change (concat (map _ (rev (map name qs') ++ [name (d_name x)])))
        with (path_string (root_first qs' ++ [name (d_name x)])).
      rewrite !take_take, path_string_snoc.
      rewrite <- !app_assoc. cbn [app]. f_equal. f_equal. lia.
Qed.

(** The walk without enough room ends in [Elong]; what lies at and above
    the cursor it started from is left as it was. *)
Lemma dentry_path_loop_elong dc (d : nat) :
  forall (fuel : nat) (p retval : Z) (qs : list qstr) (st : bufstate)
         (pre post : list byte),
  chain_of dc d p = Some qs ->
  forallb qstr_wf qs = true ->
  forallb len_fits_int qs = true ->
  mem st = pre ++ post ->
  buffer st = Z.of_nat (length pre) ->
  0 <= buflen st <= buffer st ->
  buflen st <= INT_MAX ->
  buflen st < names_len qs + Z.of_nat d ->
  (d < fuel)%nat ->
  exists pre' : list byte,
    dentry_path_loop dc fuel p retval st
    = Ret (ERR_PTR (- ENAMETOOLONG), pre' ++ post)
    /\ length pre' = length pre.
Proof.
  induction d as [|d IH];
    intros fuel p retval qs st pre post Hchain Hwf Hfit Hmem Hbuf Hroom Hmax Hneed Hfuel;
    (destruct fuel as [|fuel]; [lia|]); cbn [dentry_path_loop].
  - apply chain_of_root in Hchain as (x & Hx & Hroot & ->). cbn in Hneed. lia.
  - apply chain_of_step in Hchain as (x & qs' & Hx & Hroot & -> & Hchain).
    cbn [forallb] in Hwf, Hfit.
    apply andb_true_iff in Hwf as [Hq Hwf].
    apply andb_true_iff in Hfit as [Hqfit Hfit].
    pose proof (names_len_nonneg qs' Hwf) as Hpos.
    assert (Hlen : len (d_name x) = Z.of_nat (length (name (d_name x)))).
    { unfold qstr_wf in Hq. apply Z.eqb_eq in Hq. exact Hq. }
    unfold len_fits_int in Hqfit. apply Z.leb_le in Hqfit.
    cbn [names_len foldr] in *. fold (names_len qs') in *.
    unfold IS_ROOT, deref. rewrite Hx. cbn. rewrite Hroot. cbn.
    destruct (Z.lt_ge_cases (buflen st) (len (d_name x))) as [Hshort|Hfits].
    { (* the name does not fit *)
      unfold prepend_name.
      rewrite to_int_small by (unfold INT_MIN, INT_MAX in *; lia).
      rewrite prepend_elong by (unfold INT_MIN, INT_MAX in *; lia).
      cbn. exists pre. rewrite Hmem. split; reflexivity. }
    rewrite (prepend_name_ok st pre post) by (auto; lia). cbn.
    destruct (Z.lt_ge_cases (buflen st - len (d_name x)) 1) as [Hshort|Hfits'].
    { (* the name fits, its separator does not *)
      rewrite prepend_elong by (cbn [buflen]; unfold INT_MIN; lia).
      cbn. exists (take (Z.to_nat (buffer st - len (d_name x))) pre ++ name (d_name x)).
      rewrite <- app_assoc. split; [reflexivity|].
      rewrite length_app, length_take. lia. }
    erewrite prepend_slash_ok;
      [ | cbn [mem]; reflexivity | cbn [buffer]; rewrite length_take; lia
        | cbn [buflen buffer]; lia | cbn [buflen]; lia ].
    cbn.
    edestruct (IH fuel (d_parent x)) as (pre' & -> & Hpre');
      [ exact Hchain | exact Hwf | exact Hfit | cbn [mem]; reflexivity
      | cbn [buffer]; rewrite length_take, length_take; lia
      | cbn [buflen buffer]; lia | cbn [buflen]; lia | cbn [buflen]; lia | lia | ].
    exists (pre' ++ [x2f] ++ name (d_name x)).
    rewrite <- !app_assoc. split; [reflexivity|].
    rewrite !length_app, Hpre', !length_take. cbn [length]. lia.
Qed.

Lemma full_path_length qs :
  forallb qstr_wf qs = true ->
  Z.of_nat (length (full_path qs))
  = match qs with
    | [] => 1
    | _ => names_len qs + Z.of_nat (length qs)
    end.
Proof.
  intros Hwf. destruct qs as [|q qs]; [reflexivity|].
  unfold full_path. apply path_string_length. exact Hwf.
Qed.

Lemma full_path_length_pos qs :
  forallb qstr_wf qs = true -> 1 <= Z.of_nat (length (full_path qs)).
Proof.
  intros Hwf. rewrite (full_path_length qs Hwf).
  destruct qs as [|q qs]; [lia|].
  pose proof (names_len_nonneg _ Hwf). cbn [length]. lia.
Qed.

(** [smith_dentry_path] with room for the path and its terminator. *)
Lemma smith_dentry_path_ok dc (d fuel : nat) (p : Z) (qs : list qstr)
    (buf : list byte) (cap : Z) :
  chain_of dc d p = Some qs ->
  forallb qstr_wf qs = true ->
  Z.of_nat (length (full_path qs)) + 1 <= cap <= INT_MAX ->
  cap <= Z.of_nat (length buf) ->
  (d < fuel)%nat ->
  smith_dentry_path dc fuel p buf cap
  = Ret (Ptr (cap - 1 - Z.of_nat (length (full_path qs))),
         take (Z.to_nat (cap - 1 - Z.of_nat (length (full_path qs)))) buf
           ++ full_path qs ++ [x00] ++ drop (Z.to_nat cap) buf).
Proof.
  intros Hchain Hwf Hcap Hbuf Hfuel.
  pose proof (full_path_length_pos qs Hwf) as Hpos.
  pose proof (full_path_length qs Hwf) as Hlen.
  pose proof (chain_of_length _ _ _ _ Hchain) as Hd.
  unfold smith_dentry_path.
  erewrite (prepend_ok _ (take (Z.to_nat cap) buf) (drop (Z.to_nat cap) buf)
              [x00] [x00]);
    [ | cbn [mem]; symmetry; apply take_drop
      | cbn [buffer]; rewrite length_take; lia | reflexivity
      | cbn [buflen buffer]; lia | cbn [buflen]; lia ].
  cbn [mbind exec_bind buflen buffer mem].
  destruct (Z.ltb_spec (cap - 1) 1) as [?|_]; [lia|].
  erewrite store_tail; [ | lia | rewrite length_take, length_take; lia ].
  cbn [mbind exec_bind].
  erewrite (dentry_path_loop_ok dc d fuel p _ qs _
              (take (Z.to_nat (cap - 1 - 1)) (take (Z.to_nat (cap - 1)) (take (Z.to_nat cap) buf)) ++ [x2f])
              ([x00] ++ drop (Z.to_nat cap) buf));
    [ | exact Hchain | exact Hwf | cbn [mem]; rewrite <- app_assoc; reflexivity
      | cbn [buffer]; rewrite length_app, !length_take; cbn [length]; lia
      | cbn [buflen buffer]; lia | cbn [buflen]; lia
      | cbn [buflen]; destruct qs; [subst d; cbn; lia | rewrite <- Hd; lia]
      | exact Hfuel ].
  cbn [buffer]. destruct qs as [|q qs].
  - subst d. cbn [names_len foldr full_path path_string root_first map rev concat length].
    rewrite take_ge by (rewrite length_app, !length_take; cbn [length]; lia).
    rewrite !take_take, <- !app_assoc. cbn [app].
    repeat (f_equal; try lia).
  - pose proof (names_len_nonneg _ Hwf) as Hnn.
    rewrite Hlen in *. rewrite Hd in *.
    destruct d as [|d']; [discriminate|].
    change (full_path (q :: qs)) with (path_string (root_first (q :: qs))).
    rewrite take_app_le by (rewrite !length_take; lia).
    rewrite !take_take. repeat (f_equal; try lia).
Qed.

(** [smith_dentry_path] without room: the sentinel, and the terminator is in
    place whenever the buffer has a last byte. *)
Lemma smith_dentry_path_elong dc (d fuel : nat) (p : Z) (qs : list qstr)
    (buf : list byte) (cap : Z) :
  chain_of dc d p = Some qs ->
  forallb qstr_wf qs = true ->
  forallb len_fits_int qs = true ->
  INT_MIN < cap <= INT_MAX ->
  cap < Z.of_nat (length (full_path qs)) + 1 ->
  cap <= Z.of_nat (length buf) ->
  (d < fuel)%nat ->
  exists m' : list byte,
    smith_dentry_path dc fuel p buf cap = Ret (ERR_PTR (- ENAMETOOLONG), m')
    /\ (cap <= 0 -> m' = buf)
    /\ (1 <= cap ->
        exists pre' : list byte,
          m' = pre' ++ [x00] ++ drop (Z.to_nat cap) buf
          /\ Z.of_nat (length pre') = cap - 1).
Proof.
  intros Hchain Hwf Hfit Hcap Hshort Hbuf Hfuel.
  pose proof (full_path_length qs Hwf) as Hlen.
  pose proof (chain_of_length _ _ _ _ Hchain) as Hd.
  unfold smith_dentry_path.
  destruct (Z.lt_ge_cases cap 1) as [Hneg|Hpos].
  { (* no room for the terminator *)
    rewrite prepend_elong by (cbn [buflen]; unfold INT_MIN in *; lia).
    cbn [mbind exec_bind buflen mem].
    destruct (Z.ltb_spec (cap - 1) 1) as [_|?]; [|lia].
    exists buf. split; [reflexivity|]. split; [reflexivity|lia]. }
  erewrite (prepend_ok _ (take (Z.to_nat cap) buf) (drop (Z.to_nat cap) buf)
              [x00] [x00]);
    [ | cbn [mem]; symmetry; apply take_drop
      | cbn [buffer]; rewrite length_take; lia | reflexivity
      | cbn [buflen buffer]; lia | cbn [buflen]; lia ].
  cbn [mbind exec_bind buflen buffer mem].
  destruct (Z.ltb_spec (cap - 1) 1) as [Hone|Htwo].
  { (* room for the terminator only *)
    eexists. split; [reflexivity|]. split; [lia|]. intros _.
    eexists. split; [reflexivity|]. rewrite !length_take. lia. }
  erewrite store_tail; [ | lia | rewrite length_take, length_take; lia ].
  cbn [mbind exec_bind].
  destruct qs as [|q qs]; [cbn in Hshort; lia|].
  match goal with |- context [dentry_path_loop _ _ _ _ ?st0] =>
  edestruct (dentry_path_loop_elong dc d fuel p (cap - 1 - 1) (q :: qs) st0
              (take (Z.to_nat (cap - 1 - 1)) (take (Z.to_nat (cap - 1)) (take (Z.to_nat cap) buf)) ++ [x2f])
              ([x00] ++ drop (Z.to_nat cap) buf)) as (pre' & -> & Hpre');
    [ exact Hchain | exact Hwf | exact Hfit | cbn [mem]; rewrite <- app_assoc; reflexivity
    | cbn [buffer]; rewrite length_app, !length_take; cbn [length]; lia
    | cbn [buflen buffer]; lia | cbn [buflen]; lia
    | cbn [buflen]; rewrite <- Hd; lia | exact Hfuel | ]
  end.
  exists (pre' ++ [x00] ++ drop (Z.to_nat cap) buf).
  split; [reflexivity|]. split; [lia|]. intros _.
  exists pre'. split; [reflexivity|].
  rewrite Hpre', length_app, !length_take. cbn [length]. lia.
Qed.

Lemma segment_middle (pre s post : list byte) (off : Z) (n : nat) :
  off = Z.of_nat (length pre) -> n = length s ->
  segment (pre ++ s ++ post) off n = s.
Proof.
  intros -> ->. unfold segment. rewrite Nat2Z.id.
  rewrite drop_app_length. apply take_app_length.
Qed.

Lemma until_nul_terminated (s rest : list byte) :
  nul_free s = true -> until_nul (s ++ x00 :: rest) = Some s.
Proof.
  induction s as [|b s IH]; cbn; [reflexivity|].
  intros H. apply andb_true_iff in H as [Hb Hs].
  apply negb_true_iff in Hb. rewrite Hb, (IH Hs). reflexivity.
Qed.

Lemma c_string_middle (pre s post : list byte) (off : Z) :
  off = Z.of_nat (length pre) -> nul_free s = true ->
  c_string (pre ++ s ++ x00 :: post) off = Some s.
Proof.
  intros -> Hs. unfold c_string.
  destruct (Z.ltb_spec (Z.of_nat (length pre)) 0); [lia|].
  rewrite Nat2Z.id, drop_app_length. apply until_nul_terminated. exact Hs.
Qed.

Lemma nul_free_app (a b : list byte) :
  nul_free (a ++ b) = nul_free a && nul_free b.
Proof. unfold nul_free. apply forallb_app. Qed.

Lemma nul_free_path_string qs :
  forallb nul_free (map name qs) = true ->
  nul_free (path_string (root_first qs)) = true.
Proof.
  induction qs as [|q qs IH]; [reflexivity|].
  cbn [map forallb]. intros H. apply andb_true_iff in H as [Hq Hqs].
  rewrite root_first_cons, path_string_snoc, nul_free_app, (IH Hqs).
  cbn. exact Hq.
Qed.

Lemma names_fit_int qs :
  forallb qstr_wf qs = true -> names_len qs <= INT_MAX ->
  forallb len_fits_int qs = true.
Proof.
  induction qs as [|q qs IH]; [reflexivity|].
  cbn [forallb names_len foldr]. fold (names_len qs).
  intros Hwf Hsum. apply andb_true_iff in Hwf as [Hq Hwf].
  pose proof (names_len_nonneg qs Hwf) as Hnn.
  unfold qstr_wf in Hq. apply Z.eqb_eq in Hq.
  apply andb_true_iff. split.
  - unfold len_fits_int. apply Z.leb_le. lia.
  - apply IH; [exact Hwf|lia].
Qed.

Lemma IS_ROOT_chain dc p : IS_ROOT dc p = Ret true -> chain_of dc O p = Some [].
Proof.
  unfold IS_ROOT, deref. cbn. destruct (dc !! p) as [x|]; [|discriminate].
  cbn. intros [= ->]. reflexivity.
Qed.

(** The model run on [/usr/bin]: an exact fit, one byte short, room to spare,
    and a walk cut short by its fuel. *)
Example dentry_path_usr_bin_exact :
  smith_dentry_path dcache_usr_bin 3 300 (replicate 9 xff) 9
  = Ret (Ptr 0, [x2f; x75; x73; x72; x2f; x62; x69; x6e; x00]).
Proof. reflexivity. Qed.

Example dentry_path_usr_bin_short :
  smith_dentry_path dcache_usr_bin 3 300 (replicate 8 xff) 8
  = Ret (ERR_PTR (-36), [x75; x73; x72; x2f; x62; x69; x6e; x00]).
Proof. reflexivity. Qed.

Example dentry_path_usr_bin_spare :
  smith_dentry_path dcache_usr_bin 3 300 (replicate 11 xff) 11
  = Ret (Ptr 2, [xff; xff; x2f; x75; x73; x72; x2f; x62; x69; x6e; x00]).
Proof. reflexivity. Qed.

Example dentry_path_out_of_fuel :
  smith_dentry_path dcache_usr_bin 2 300 (replicate 9 xff) 9 = OutOfFuel.
Proof. reflexivity. Qed.

(** C1, as stated, at a chain of depth 0: a root alone has [d = 0] and
    [L = 0], yet a buffer of capacity [L + d + 1 = 1] gets the sentinel. *)
Lemma smith_dentry_path_root_capacity_1 :
  chain_of dcache_usr_bin 0 100 = Some []
  /\ names_len [] + Z.of_nat 0 + 1 <= 1
  /\ smith_dentry_path dcache_usr_bin 1 100 [xff] 1
     = Ret (ERR_PTR (- ENAMETOOLONG), [x00]).
Proof. split; [reflexivity|]. split; [cbn; lia|]. reflexivity. Qed.

(** C1 (amended): for a chain of depth [d >= 1] whose names have total
    length [L], a buffer of capacity at least [L + d + 1] gets a pointer to
    ["/name1/.../nameD"] (root first) followed by its NUL at the last byte of
    the buffer, and a buffer of capacity exactly [L + d] gets
    [ERR_PTR(-ENAMETOOLONG)]. *)
Theorem smith_dentry_path_chain dc (d fuel : nat) (p : Z) (qs : list qstr)
    (buf : list byte) (cap : Z) :
  chain_of dc d p = Some qs ->
  (1 <= d)%nat ->
  forallb qstr_wf qs = true ->
  cap <= INT_MAX ->
  cap <= Z.of_nat (length buf) ->
  (d < fuel)%nat ->
  (names_len qs + Z.of_nat d + 1 <= cap ->
   exists m' : list byte,
     smith_dentry_path dc fuel p buf cap
     = Ret (Ptr (cap - 1 - (names_len qs + Z.of_nat d)), m')
     /\ segment m' (cap - 1 - (names_len qs + Z.of_nat d))
          (Z.to_nat (names_len qs + Z.of_nat d + 1))
        = path_string (root_first qs) ++ [x00]
     /\ (forallb nul_free (map name qs) = true ->
         c_string m' (cap - 1 - (names_len qs + Z.of_nat d))
         = Some (path_string (root_first qs))))
  /\ (cap = names_len qs + Z.of_nat d ->
      exists m' : list byte,
        smith_dentry_path dc fuel p buf cap
        = Ret (ERR_PTR (- ENAMETOOLONG), m')).
Proof.
  intros Hchain Hd Hwf Hmax Hbuf Hfuel.
  pose proof (chain_of_length _ _ _ _ Hchain) as Hlen.
  pose proof (names_len_nonneg qs Hwf) as Hnn.
  pose proof (full_path_length qs Hwf) as Hfp.
  destruct qs as [|q qs]; [cbn in Hlen; lia|].
  rewrite Hlen in Hfp.
  change (full_path (q :: qs)) with (path_string (root_first (q :: qs))) in Hfp.
  split.
  - intros Hroom.
    rewrite (smith_dentry_path_ok dc d fuel p (q :: qs) buf cap)
      by (auto; unfold full_path; lia).
    change (full_path (q :: qs)) with (path_string (root_first (q :: qs))).
    rewrite Hfp. eexists. split; [reflexivity|]. split.
    + rewrite (app_assoc (path_string _) [x00]).
      apply segment_middle.
      * rewrite length_take. lia.
      * rewrite length_app. cbn [length]. lia.
    + intros Hnul. apply c_string_middle.
      * rewrite length_take. lia.
      * apply nul_free_path_string. exact Hnul.
  - intros Hcap.
    destruct (smith_dentry_path_elong dc d fuel p (q :: qs) buf cap)
      as (m' & Hres & _); auto.
    + apply names_fit_int; [exact Hwf|lia].
    + unfold INT_MIN. lia.
    + unfold full_path. lia.
    + exists m'. exact Hres.
Qed.

Lemma smith_dentry_path_chain_witness :
  (exists m' : list byte,
     smith_dentry_path dcache_usr_bin 3 300 (replicate 12 xff) 12 = Ret (Ptr 3, m')
     /\ c_string m' 3 = Some [x2f; x75; x73; x72; x2f; x62; x69; x6e])
  /\ (exists m' : list byte,
        smith_dentry_path dcache_usr_bin 3 300 (replicate 8 xff) 8
        = Ret (ERR_PTR (- ENAMETOOLONG), m')).
Proof.
  pose (qs := [mk_qstr [x62; x69; x6e]; mk_qstr [x75; x73; x72]]).
  assert (Hchain : chain_of dcache_usr_bin 2 300 = Some qs) by reflexivity.
  assert (Hwf : forallb qstr_wf qs = true) by reflexivity.
  split.
  - destruct (smith_dentry_path_chain dcache_usr_bin 2 3 300 qs
                (replicate 12 xff) 12 Hchain) as [Hok _];
      [lia | exact Hwf | unfold INT_MAX; lia | cbn; lia | lia |].
    destruct Hok as (m' & Hres & _ & Hstr); [cbn; lia|].
    exists m'. split; [exact Hres|]. apply Hstr. reflexivity.
  - destruct (smith_dentry_path_chain dcache_usr_bin 2 3 300 qs
                (replicate 8 xff) 8 Hchain) as [_ Hshort];
      [lia | exact Hwf | unfold INT_MAX; lia | cbn; lia | lia |].
    apply Hshort. reflexivity.
Defined.

(** C8: on a root node ([IS_ROOT] true, no parent step) a buffer of capacity
    at least 2 gets a pointer to the C string ["/"]. *)
Theorem smith_dentry_path_root dc (fuel : nat) (p : Z) (buf : list byte) (cap : Z) :
  IS_ROOT dc p = Ret true ->
  2 <= cap <= INT_MAX ->
  cap <= Z.of_nat (length buf) ->
  (0 < fuel)%nat ->
  exists m' : list byte,
    smith_dentry_path dc fuel p buf cap = Ret (Ptr (cap - 2), m')
    /\ c_string m' (cap - 2) = Some [x2f].
Proof.
  intros Hroot Hcap Hbuf Hfuel. apply IS_ROOT_chain in Hroot.
  rewrite (smith_dentry_path_ok dc 0 fuel p [] buf cap) by (auto; cbn; lia).
  cbn [full_path length].
  replace (cap - 1 - Z.of_nat 1) with (cap - 2) by lia.
  eexists. split; [reflexivity|].
  apply c_string_middle; [rewrite length_take; lia | reflexivity].
Qed.

Lemma smith_dentry_path_root_witness :
  exists m' : list byte,
    smith_dentry_path dcache_usr_bin 1 100 [xff; xff; xff] 3 = Ret (Ptr (3 - 2), m')
    /\ c_string m' (3 - 2) = Some [x2f].
Proof.
  apply (smith_dentry_path_root dcache_usr_bin 1 100 [xff; xff; xff] 3).
  - reflexivity.
  - unfold INT_MAX. lia.
  - cbn. lia.
  - lia.
Defined.

(** Both outcomes of [smith_dentry_path] on a well-formed chain. *)
Lemma smith_dentry_path_cases dc (d fuel : nat) (p : Z) (qs : list qstr)
    (buf : list byte) (cap : Z) :
  chain_of dc d p = Some qs ->
  forallb qstr_wf qs = true ->
  forallb len_fits_int qs = true ->
  INT_MIN < cap <= INT_MAX ->
  cap <= Z.of_nat (length buf) ->
  (d < fuel)%nat ->
  (Z.of_nat (length (full_path qs)) + 1 <= cap
   /\ smith_dentry_path dc fuel p buf cap
      = Ret (Ptr (cap - 1 - Z.of_nat (length (full_path qs))),
             take (Z.to_nat (cap - 1 - Z.of_nat (length (full_path qs)))) buf
               ++ full_path qs ++ [x00] ++ drop (Z.to_nat cap) buf))
  \/ (cap < Z.of_nat (length (full_path qs)) + 1
      /\ exists m' : list byte,
           smith_dentry_path dc fuel p buf cap = Ret (ERR_PTR (- ENAMETOOLONG), m')
           /\ (1 <= cap ->
               exists pre' : list byte,
                 m' = pre' ++ [x00] ++ drop (Z.to_nat cap) buf
                 /\ Z.of_nat (length pre') = cap - 1)).
Proof.
  intros Hchain Hwf Hfit Hcap Hbuf Hfuel.
  destruct (Z.lt_ge_cases cap (Z.of_nat (length (full_path qs)) + 1)) as [Hshort|Hroom].
  - right. split; [exact Hshort|].
    destruct (smith_dentry_path_elong dc d fuel p qs buf cap)
      as (m' & Hres & _ & Hnul); auto.
    exists m'. split; assumption.
  - left. split; [exact Hroom|].
    apply (smith_dentry_path_ok dc d); auto. lia.
Qed.

(** C6: every failure is [ERR_PTR(-ENAMETOOLONG)], and a returned pointer
    always points to the whole path with its terminator, never to a part of
    it; any capacity below what the path and its terminator need, one byte
    short included, gets the sentinel. *)
Theorem smith_dentry_path_never_truncates dc (d fuel : nat) (p : Z)
    (qs : list qstr) (buf : list byte) (cap : Z) :
  chain_of dc d p = Some qs ->
  forallb qstr_wf qs = true ->
  forallb len_fits_int qs = true ->
  INT_MIN < cap <= INT_MAX ->
  cap <= Z.of_nat (length buf) ->
  (d < fuel)%nat ->
  exists (r : pointer) (m' : list byte),
    smith_dentry_path dc fuel p buf cap = Ret (r, m')
    /\ (r = ERR_PTR (- ENAMETOOLONG)
        \/ exists off : Z,
             r = Ptr off
             /\ segment m' off (S (length (full_path qs))) = full_path qs ++ [x00])
    /\ (cap < Z.of_nat (length (full_path qs)) + 1 -> r = ERR_PTR (- ENAMETOOLONG))
    /\ (cap = Z.of_nat (length (full_path qs)) -> r = ERR_PTR (- ENAMETOOLONG)).
Proof.
  intros Hchain Hwf Hfit Hcap Hbuf Hfuel.
  pose proof (full_path_length_pos qs Hwf) as Hpos.
  destruct (smith_dentry_path_cases dc d fuel p qs buf cap)
    as [[Hroom Hres]|[Hshort (m' & Hres & _)]]; auto.
  - eexists _, _. split; [exact Hres|]. split; [|split; intros; lia].
    right. eexists. split; [reflexivity|].
    rewrite (app_assoc (full_path qs) [x00]).
    apply segment_middle.
    + rewrite length_take. lia.
    + rewrite length_app. cbn [length]. lia.
  - exists (ERR_PTR (- ENAMETOOLONG)), m'. split; [exact Hres|].
    split; [left; reflexivity|]. split; intros; reflexivity.
Qed.

Lemma smith_dentry_path_never_truncates_witness :
  exists (r : pointer) (m' : list byte),
    smith_dentry_path dcache_usr_bin 3 300 (replicate 8 xff) 8 = Ret (r, m')
    /\ r = ERR_PTR (- ENAMETOOLONG).
Proof.
  pose (qs := [mk_qstr [x62; x69; x6e]; mk_qstr [x75; x73; x72]]).
  destruct (smith_dentry_path_never_truncates dcache_usr_bin 2 3 300 qs
              (replicate 8 xff) 8) as (r & m' & Hres & _ & _ & Hshort);
    [reflexivity | reflexivity | reflexivity | unfold INT_MIN, INT_MAX; lia
    | cbn; lia | lia |].
  exists r, m'. split; [exact Hres|]. apply Hshort. reflexivity.
Defined.

(** C9: with a capacity of at least 1 the last byte of the buffer holds NUL
    when the function returns, whether it failed or not; on success the bytes
    from the returned pointer to the end of the buffer are the path followed
    by that NUL. *)
Theorem smith_dentry_path_writes_terminator dc (d fuel : nat) (p : Z)
    (qs : list qstr) (buf : list byte) (cap : Z) :
  chain_of dc d p = Some qs ->
  forallb qstr_wf qs = true ->
  forallb len_fits_int qs = true ->
  1 <= cap <= INT_MAX ->
  cap <= Z.of_nat (length buf) ->
  (d < fuel)%nat ->
  exists (r : pointer) (m' : list byte),
    smith_dentry_path dc fuel p buf cap = Ret (r, m')
    /\ m' !! Z.to_nat (cap - 1) = Some x00
    /\ (forall off : Z,
          r = Ptr off ->
          segment m' off (Z.to_nat (cap - off)) = full_path qs ++ [x00]).
Proof.
  intros Hchain Hwf Hfit Hcap Hbuf Hfuel.
  pose proof (full_path_length_pos qs Hwf) as Hpos.
  destruct (smith_dentry_path_cases dc d fuel p qs buf cap)
    as [[Hroom Hres]|[Hshort (m' & Hres & Hnul)]]; auto.
  { unfold INT_MIN. lia. }
  - eexists _, _. split; [exact Hres|]. split.
    + rewrite (app_assoc _ (full_path qs)). apply list_lookup_middle.
      rewrite length_app, length_take. lia.
    + intros off [= <-].
      rewrite (app_assoc (full_path qs) [x00]).
      apply segment_middle.
      * rewrite length_take. lia.
      * rewrite length_app. cbn [length]. lia.
  - destruct Hnul as (pre' & -> & Hpre'); [lia|].
    eexists _, _. split; [exact Hres|]. split.
    + apply list_lookup_middle. lia.
    + intros off [=].
Qed.

Lemma smith_dentry_path_writes_terminator_witness :
  exists (r : pointer) (m' : list byte),
    smith_dentry_path dcache_usr_bin 3 300 (replicate 5 xff) 5 = Ret (r, m')
    /\ m' !! Z.to_nat (5 - 1) = Some x00.
Proof.
  pose (qs := [mk_qstr [x62; x69; x6e]; mk_qstr [x75; x73; x72]]).
  destruct (smith_dentry_path_writes_terminator dcache_usr_bin 2 3 300 qs
              (replicate 5 xff) 5) as (r & m' & Hres & Hnul & _);
    [reflexivity | reflexivity | reflexivity | unfold INT_MAX; lia
    | cbn; lia | lia |].
  exists r, m'. split; [exact Hres | exact Hnul].
Defined.

(** ** The symbol resolver *)

Lemma registrations_app l1 l2 :
  registrations (l1 ++ l2) = (registrations l1 + registrations l2)%nat.
Proof. unfold registrations. rewrite filter_app, length_app. reflexivity. Qed.

Lemma registrations_calls (fn : Z) (names : list string) :
  registrations (map (EvCall fn) names) = O.
Proof. induction names as [|nm names IH]; [reflexivity|exact IH]. Qed.

Lemma registrations_single (e : kevent) :
  registrations [e] = if is_register e then 1%nat else 0%nat.
Proof. destruct e; reflexivity. Qed.

(** With the cache filled, a call is one indirect call and nothing else. *)
Lemma smith_kallsyms_lookup_name_cached cfg k st nm :
  use_kprobe_lookup cfg = true ->
  kallsyms_lookup_name_sym st <> 0 ->
  smith_kallsyms_lookup_name cfg k st nm
  = (call_at k (kallsyms_lookup_name_sym st) nm,
     {| kallsyms_lookup_name_sym := kallsyms_lookup_name_sym st;
        klog := klog st ++ [EvCall (kallsyms_lookup_name_sym st) nm] |}).
Proof.
  intros Hcfg Hsym. unfold smith_kallsyms_lookup_name. rewrite Hcfg.
  destruct (Z.eqb_spec (kallsyms_lookup_name_sym st) 0); [contradiction|].
  reflexivity.
Qed.

Lemma lookup_all_cached cfg k (names : list string) :
  forall st : kstate,
  use_kprobe_lookup cfg = true ->
  kallsyms_lookup_name_sym st <> 0 ->
  lookup_all cfg k st names
  = (map (call_at k (kallsyms_lookup_name_sym st)) names,
     {| kallsyms_lookup_name_sym := kallsyms_lookup_name_sym st;
        klog := klog st ++ map (EvCall (kallsyms_lookup_name_sym st)) names |}).
Proof.
  induction names as [|nm names IH]; intros st Hcfg Hsym; cbn [lookup_all map].
  - rewrite app_nil_r. destruct st; reflexivity.
  - rewrite smith_kallsyms_lookup_name_cached by assumption.
    rewrite IH by assumption. cbn. rewrite <- app_assoc. reflexivity.
Qed.

(** A failed registration leaves the cache empty and is the only event. *)
Lemma smith_kallsyms_lookup_name_register_fails cfg k st nm :
  use_kprobe_lookup cfg = true ->
  kallsyms_lookup_name_sym st = 0 ->
  (register_kprobe k (registrations (klog st)) "kallsyms_lookup_name").1 <> 0 ->
  smith_kallsyms_lookup_name cfg k st nm
  = (0, {| kallsyms_lookup_name_sym := 0;
           klog := klog st ++ [EvRegisterKprobe "kallsyms_lookup_name"] |}).
Proof.
  intros Hcfg Hsym Hret. unfold smith_kallsyms_lookup_name, get_kallsyms_func.
  rewrite Hcfg, Hsym. cbn.
  destruct (register_kprobe k _ _) as [ret addr]. cbn in Hret.
  destruct (Z.eqb_spec ret 0); [contradiction|]. reflexivity.
Qed.

(** An empty cache always leads to one more registration attempt. *)
Lemma smith_kallsyms_lookup_name_attempts cfg k st nm :
  use_kprobe_lookup cfg = true ->
  kallsyms_lookup_name_sym st = 0 ->
  registrations (klog (smith_kallsyms_lookup_name cfg k st nm).2)
  = S (registrations (klog st)).
Proof.
  intros Hcfg Hsym. unfold smith_kallsyms_lookup_name, get_kallsyms_func.
  rewrite Hcfg, Hsym, Z.eqb_refl.
  destruct (register_kprobe k _ _) as [ret addr].
  destruct (Z.eqb_spec ret 0); cbn [negb].
  - destruct (Z.eqb_spec addr 0); cbn [snd klog];
      rewrite !registrations_app, !registrations_single; cbn [is_register]; lia.
  - rewrite Z.eqb_refl. cbn [snd klog].
    rewrite registrations_app, registrations_single. cbn [is_register]. lia.
Qed.

Lemma smith_kallsyms_lookup_name_resolves cfg k st nm addr :
  use_kprobe_lookup cfg = true ->
  kallsyms_lookup_name_sym st = 0 ->
  register_kprobe k (registrations (klog st)) "kallsyms_lookup_name" = (0, addr) ->
  addr <> 0 ->
  smith_kallsyms_lookup_name cfg k st nm
  = (call_at k addr nm,
     {| kallsyms_lookup_name_sym := addr;
        klog := klog st ++ [EvRegisterKprobe "kallsyms_lookup_name";
                            EvUnregisterKprobe addr; EvCall addr nm] |}).
Proof.
  intros Hcfg Hsym Hreg Haddr. unfold smith_kallsyms_lookup_name, get_kallsyms_func.
  rewrite Hcfg, Hsym, Hreg. cbn.
  destruct (Z.eqb_spec addr 0); [contradiction|].
  rewrite <- !app_assoc. reflexivity.
Qed.

(** The model run on [kernel_flaky]: the first call fails to register, the
    second resolves, the third goes through the cache; the direct build just
    calls the exported routine. *)
Example resolver_three_calls :
  (lookup_all build_x86_5_10 kernel_flaky kstate_init
     ["vfs_read"; "vfs_read"; "vfs_read"]%string).1
  = [0; 0xffffffff81234560 + 8; 0xffffffff81234560 + 8]
  /\ klog (lookup_all build_x86_5_10 kernel_flaky kstate_init
             ["vfs_read"; "vfs_read"; "vfs_read"]%string).2
     = [EvRegisterKprobe "kallsyms_lookup_name";
        EvRegisterKprobe "kallsyms_lookup_name";
        EvUnregisterKprobe 0xffffffff81234560;
        EvCall 0xffffffff81234560 "vfs_read";
        EvCall 0xffffffff81234560 "vfs_read"].
Proof. split; reflexivity. Qed.

Example resolver_direct :
  smith_kallsyms_lookup_name build_arm64_4_19 kernel_flaky kstate_init "vfs_read"
  = (0, kstate_init).
Proof. reflexivity. Qed.

(** A call that leaves an address in the cache answered through it. *)
Lemma smith_kallsyms_lookup_name_via_cache cfg k (st st1 : kstate) nm r :
  use_kprobe_lookup cfg = true ->
  smith_kallsyms_lookup_name cfg k st nm = (r, st1) ->
  kallsyms_lookup_name_sym st1 <> 0 ->
  r = call_at k (kallsyms_lookup_name_sym st1) nm.
Proof.
  intros Hcfg Hcall Hsym. unfold smith_kallsyms_lookup_name in Hcall.
  rewrite Hcfg in Hcall.
  destruct (kallsyms_lookup_name_sym st =? 0).
  - destruct (get_kallsyms_func k (klog st)) as [sym log].
    destruct (Z.eqb_spec sym 0); injection Hcall as <- <-;
      [cbn in Hsym; contradiction|reflexivity].
  - injection Hcall as <- <-. reflexivity.
Qed.

(** C3: in the kprobe-based build, once a call has left the resolved address
    in the cache, that call and every later one return what calling that same
    address returns, the cache keeps the address, and the history grows by
    those indirect calls only: [register_kprobe] is not called again. *)
Theorem smith_kallsyms_lookup_name_singleton cfg k (st st1 st2 : kstate)
    (nm : string) (r : Z) (names : list string) (rs : list Z) :
  use_kprobe_lookup cfg = true ->
  smith_kallsyms_lookup_name cfg k st nm = (r, st1) ->
  kallsyms_lookup_name_sym st1 <> 0 ->
  lookup_all cfg k st1 names = (rs, st2) ->
  r = call_at k (kallsyms_lookup_name_sym st1) nm
  /\ rs = map (call_at k (kallsyms_lookup_name_sym st1)) names
  /\ kallsyms_lookup_name_sym st2 = kallsyms_lookup_name_sym st1
  /\ klog st2 = klog st1 ++ map (EvCall (kallsyms_lookup_name_sym st1)) names
  /\ registrations (klog st2) = registrations (klog st1).
Proof.
  intros Hcfg Hcall Hsym Hall.
  split; [exact (smith_kallsyms_lookup_name_via_cache _ _ _ _ _ _ Hcfg Hcall Hsym)|].
  rewrite lookup_all_cached in Hall by assumption.
  injection Hall as <- <-. cbn [kallsyms_lookup_name_sym klog].
  repeat split.
  rewrite registrations_app, registrations_calls. lia.
Qed.

Lemma smith_kallsyms_lookup_name_singleton_witness :
  (lookup_all build_x86_5_10 kernel_flaky kstate_resolved
     ["sys_call_table"; "vfs_read"]%string).1
  = [0xffffffff81234560 + 14; 0xffffffff81234560 + 8]
  /\ registrations
       (klog (lookup_all build_x86_5_10 kernel_flaky kstate_resolved
                ["sys_call_table"; "vfs_read"]%string).2)
     = registrations (klog kstate_resolved).
Proof.
  destruct (smith_kallsyms_lookup_name_singleton build_x86_5_10 kernel_flaky
              (smith_kallsyms_lookup_name build_x86_5_10 kernel_flaky
                 kstate_init "sys_call_table").2
              kstate_resolved
              (lookup_all build_x86_5_10 kernel_flaky kstate_resolved
                 ["sys_call_table"; "vfs_read"]%string).2
              "sys_call_table" (0xffffffff81234560 + 14)
              ["sys_call_table"; "vfs_read"]%string
              (lookup_all build_x86_5_10 kernel_flaky kstate_resolved
                 ["sys_call_table"; "vfs_read"]%string).1)
    as (_ & Hrs & _ & _ & Hreg);
    [reflexivity | reflexivity | vm_compute; discriminate | reflexivity |].
  split; [exact Hrs | exact Hreg].
Defined.

(** C5: in the kprobe-based build, when [register_kprobe] fails the call
    returns 0, the cache stays null and nothing but the failed registration
    happened; the next call attempts the registration again, and if that one
    succeeds it resolves and answers through the address found. *)
Theorem smith_kallsyms_lookup_name_retry cfg k (st : kstate) (nm : string) :
  use_kprobe_lookup cfg = true ->
  kallsyms_lookup_name_sym st = 0 ->
  (register_kprobe k (registrations (klog st)) "kallsyms_lookup_name").1 <> 0 ->
  smith_kallsyms_lookup_name cfg k st nm = (0, after_failed_registration st)
  /\ kallsyms_lookup_name_sym (after_failed_registration st) = 0
  /\ (forall nm' : string,
        registrations
          (klog (smith_kallsyms_lookup_name cfg k (after_failed_registration st) nm').2)
        = S (registrations (klog (after_failed_registration st))))
  /\ (forall (nm' : string) (addr : Z),
        register_kprobe k (registrations (klog (after_failed_registration st)))
          "kallsyms_lookup_name" = (0, addr) ->
        addr <> 0 ->
        (smith_kallsyms_lookup_name cfg k (after_failed_registration st) nm').1
        = call_at k addr nm'
        /\ kallsyms_lookup_name_sym
             (smith_kallsyms_lookup_name cfg k (after_failed_registration st) nm').2
           = addr).
Proof.
  intros Hcfg Hsym Hret. set (st1 := after_failed_registration st).
  split; [|split; [reflexivity|split]].
  - apply smith_kallsyms_lookup_name_register_fails; assumption.
  - intros nm'. apply smith_kallsyms_lookup_name_attempts; [exact Hcfg|reflexivity].
  - intros nm' addr Hreg Haddr.
    rewrite (smith_kallsyms_lookup_name_resolves cfg k st1 nm' addr)
      by (auto; reflexivity).
    split; reflexivity.
Qed.

Lemma smith_kallsyms_lookup_name_retry_witness :
  smith_kallsyms_lookup_name build_x86_5_10 kernel_flaky kstate_init "vfs_read"
  = (0, after_failed_registration kstate_init).
Proof.
  refine (proj1 (smith_kallsyms_lookup_name_retry build_x86_5_10 kernel_flaky
                   kstate_init "vfs_read" _ _ _)).
  - reflexivity.
  - reflexivity.
  - vm_compute. discriminate.
Defined.

(** ** The volume-identity locator *)

(** The addition at the top of the address space: the 64-bit pointer wraps
    to 0, and an unmapped descriptor is no obstacle. *)
Example smith_query_sb_uuid_wraps :
  smith_query_sb_uuid build_x86_5_10 ∅ (2 ^ 64 - 1000) = Ret 0.
Proof. reflexivity. Qed.

(** C7: for one build there is one offset, [offsetof] of [s_dev] or of
    [s_uuid], such that in every kernel memory and for every descriptor
    address the call returns - it has no failure mode, mapped descriptor or
    not - the address plus that offset as a 64-bit pointer, which is the
    plain sum whenever the field lies inside the address space; the result is
    the same in any two memories, so two descriptors at the same address
    with different contents get the same pointer. *)
Theorem smith_query_sb_uuid_fixed_offset cfg :
  exists off : Z,
    off = sb_uuid_offset cfg
    /\ (off = offsetof_super_block_s_dev cfg \/ off = offsetof_super_block_s_uuid cfg)
    /\ (forall (kmem : gmap Z byte) (sb : Z),
          smith_query_sb_uuid cfg kmem sb = Ret ((sb + off) mod 2 ^ 64))
    /\ (forall (kmem : gmap Z byte) (sb : Z),
          0 <= sb + off < 2 ^ 64 ->
          smith_query_sb_uuid cfg kmem sb = Ret (sb + off))
    /\ (forall (kmem kmem' : gmap Z byte) (sb : Z),
          smith_query_sb_uuid cfg kmem sb = smith_query_sb_uuid cfg kmem' sb)
    /\ (forall d d' : super_block,
          sb_addr d = sb_addr d' ->
          smith_query_sb_uuid cfg (kmem_with d) (sb_addr d)
          = smith_query_sb_uuid cfg (kmem_with d') (sb_addr d')).
Proof.
  exists (sb_uuid_offset cfg). split; [reflexivity|].
  unfold sb_uuid_offset, smith_query_sb_uuid, u64.
  destruct (LINUX_VERSION_CODE cfg <? KERNEL_VERSION 2 6 39);
    (split; [auto|]); (split; [reflexivity|]);
    (split; [intros kmem sb Hsb; rewrite Z.mod_small by exact Hsb; reflexivity|]);
    (split; [reflexivity|]); intros d d' ->; reflexivity.
Qed.

Lemma smith_query_sb_uuid_fixed_offset_witness :
  smith_query_sb_uuid build_x86_5_10 (kmem_with (sb_example x00))
    (sb_addr (sb_example x00))
  = Ret (0xffff888000100000 + 1000)
  /\ smith_query_sb_uuid build_x86_5_10 (kmem_with (sb_example xff))
       (sb_addr (sb_example xff))
     = Ret (0xffff888000100000 + 1000)
  /\ kmem_with (sb_example x00) !! (0xffff888000100000 + 1000)
     <> kmem_with (sb_example xff) !! (0xffff888000100000 + 1000).
Proof.
  destruct (smith_query_sb_uuid_fixed_offset build_x86_5_10)
    as (off & -> & _ & _ & Hsum & _ & _).
  split; [|split].
  - apply (Hsum (kmem_with (sb_example x00)) (sb_addr (sb_example x00))).
    vm_compute. split; [discriminate | reflexivity].
  - apply (Hsum (kmem_with (sb_example xff)) (sb_addr (sb_example xff))).
    vm_compute. split; [discriminate | reflexivity].
  - vm_compute. discriminate.
Defined.

(** * Further properties of the code *)

(** ** [prepend] and the walk on arbitrary dentry caches *)

Lemma to_int_range z : INT_MIN <= to_int z <= INT_MAX.
Proof.
  unfold to_int, INT_MIN, INT_MAX.
  pose proof (Z.mod_pos_bound (z + 2 ^ 31) (2 ^ 32)). lia.
Qed.

(** X1: with [0 <= namelen] bytes to copy, [prepend] succeeds exactly when
    [namelen <= *buflen]; it then moves cursor and counter down by [namelen]
    and writes the bytes just below the old cursor, leaving every other byte
    as it was.  Otherwise it returns [-ENAMETOOLONG] with cursor and bytes
    untouched, but the counter already decremented below zero. *)
Theorem prepend_fits_or_fails (st : bufstate) (pre post str : list byte) (n : Z) :
  mem st = pre ++ post ->
  buffer st = Z.of_nat (length pre) ->
  0 <= buflen st <= buffer st ->
  buflen st <= INT_MAX ->
  0 <= n <= Z.of_nat (length str) ->
  n <= INT_MAX ->
  (n <= buflen st ->
   prepend st str n
   = Ret (0, {| buffer := buffer st - n; buflen := buflen st - n;
                mem := take (Z.to_nat (buffer st - n)) pre
                         ++ take (Z.to_nat n) str ++ post |}))
  /\ (buflen st < n ->
      prepend st str n
      = Ret (- ENAMETOOLONG,
             {| buffer := buffer st; buflen := buflen st - n; mem := mem st |})).
Proof.
  intros Hmem Hbuf Hroom Hmax Hn Hnmax. split; intros Hcmp.
  - rewrite <- (take_drop (Z.to_nat n) str) at 1.
    apply prepend_ok; try assumption; [|lia].
    rewrite length_take. lia.
  - apply prepend_elong. unfold INT_MIN, INT_MAX in *. lia.
Qed.

Lemma prepend_fits_or_fails_witness :
  prepend {| buffer := 3; buflen := 2; mem := [xff; xff; xff; x00] |} lit_slash 1
  = Ret (0, {| buffer := 2; buflen := 1; mem := [xff; xff; x2f; x00] |})
  /\ prepend {| buffer := 3; buflen := 2; mem := [xff; xff; xff; x00] |}
       [x61; x62; x63] 3
     = Ret (- ENAMETOOLONG,
            {| buffer := 3; buflen := -1; mem := [xff; xff; xff; x00] |}).
Proof.
  split.
  - refine (proj1 (prepend_fits_or_fails
                     {| buffer := 3; buflen := 2; mem := [xff; xff; xff; x00] |}
                     [xff; xff; xff] [x00] lit_slash 1 _ _ _ _ _ _) _);
      first [reflexivity | cbn; unfold INT_MAX; lia].
  - refine (proj2 (prepend_fits_or_fails
                     {| buffer := 3; buflen := 2; mem := [xff; xff; xff; x00] |}
                     [xff; xff; xff] [x00] [x61; x62; x63] 3 _ _ _ _ _ _) _);
      first [reflexivity | cbn; unfold INT_MAX; lia].
Defined.

(** X2: two prepends that both fit do what one prepend of the concatenation
    does: first [a], then [b] in front of it, equals prepending [b ++ a]. *)
Theorem prepend_twice (st : bufstate) (pre post a b : list byte) :
  mem st = pre ++ post ->
  buffer st = Z.of_nat (length pre) ->
  Z.of_nat (length a) + Z.of_nat (length b) <= buflen st <= buffer st ->
  buflen st <= INT_MAX ->
  ('(_, st1) ← prepend st a (Z.of_nat (length a));
   prepend st1 b (Z.of_nat (length b)))
  = prepend st (b ++ a) (Z.of_nat (length a) + Z.of_nat (length b)).
Proof.
  intros Hmem Hbuf Hroom Hmax.
  rewrite <- (app_nil_r a) at 1.
  rewrite (prepend_ok st pre post a []) by (auto; lia).
  cbn [mbind exec_bind].
  rewrite <- (app_nil_r b) at 1.
  erewrite (prepend_ok _ (take (Z.to_nat (buffer st - Z.of_nat (length a))) pre)
              (a ++ post) b []);
    [ | cbn [mem]; reflexivity | cbn [buffer]; rewrite length_take; lia
      | reflexivity | cbn [buflen buffer]; lia | cbn [buflen]; lia ].
  rewrite <- (app_nil_r (b ++ a)) at 1.
  rewrite (prepend_ok st pre post (b ++ a) [])
    by (auto; rewrite ?length_app; lia).
  cbn [buffer buflen]. rewrite take_take, <- !app_assoc.
  repeat (f_equal; try lia).
Qed.

Lemma prepend_twice_witness :
  ('(_, st1) ← prepend {| buffer := 6; buflen := 6; mem := replicate 6 xff |}
                 [x62; x69; x6e] (Z.of_nat (length [x62; x69; x6e]));
   prepend st1 [x2f] (Z.of_nat (length [x2f])))
  = prepend {| buffer := 6; buflen := 6; mem := replicate 6 xff |}
      ([x2f] ++ [x62; x69; x6e])
      (Z.of_nat (length [x62; x69; x6e]) + Z.of_nat (length [x2f])).
Proof.
  apply (prepend_twice {| buffer := 6; buflen := 6; mem := replicate 6 xff |}
           (replicate 6 xff) []);
    first [reflexivity | cbn; unfold INT_MAX; lia].
Defined.

(** A copy that returns leaves the size of the object and everything from
    the end of the copied range on as it was. *)
Lemma memcpy_frame (dst src m' : list byte) (off n B : Z) :
  memcpy dst off src n = Ret m' ->
  off + n <= B ->
  0 <= n /\ 0 <= off /\ length m' = length dst
  /\ drop (Z.to_nat B) m' = drop (Z.to_nat B) dst.
Proof.
  unfold memcpy. intros H HB.
  destruct (Z.leb_spec 0 n); [|discriminate].
  destruct (Z.leb_spec n (Z.of_nat (length src))); [|discriminate].
  destruct (Z.leb_spec 0 off); [|discriminate].
  destruct (Z.leb_spec (off + n) (Z.of_nat (length dst))); [|discriminate].
  cbn [andb] in H. injection H as <-.
  repeat split; try assumption.
  - rewrite !length_app, !length_take, length_drop. lia.
  - rewrite !drop_app_ge by (rewrite ?length_take; lia).
    rewrite drop_drop, !length_take. f_equal. lia.
Qed.

Lemma store_frame (dst m' : list byte) (off B : Z) (c : byte) :
  store dst off c = Ret m' ->
  off + 1 <= B ->
  0 <= off /\ length m' = length dst
  /\ drop (Z.to_nat B) m' = drop (Z.to_nat B) dst.
Proof.
  unfold store. intros H HB.
  destruct (Z.leb_spec 0 off); [|discriminate].
  destruct (Z.ltb_spec off (Z.of_nat (length dst))); [|discriminate].
  cbn [andb] in H. injection H as <-.
  repeat split; try assumption.
  - apply length_insert.
  - apply drop_insert_lt. lia.
Qed.

(** [prepend] never moves the cursor up and never writes at or above it. *)
Lemma prepend_frame (st st' : bufstate) (str : list byte) (n e B : Z) :
  prepend st str n = Ret (e, st') ->
  buffer st <= B ->
  buffer st' <= buffer st
  /\ length (mem st') = length (mem st)
  /\ drop (Z.to_nat B) (mem st') = drop (Z.to_nat B) (mem st).
Proof.
  unfold prepend. intros H HB.
  destruct (to_int (buflen st - n) <? 0).
  - injection H as <- <-. cbn. repeat split; lia.
  - destruct (memcpy (mem st) (buffer st - n) str n) as [m1| |] eqn:E;
      cbn in H; try discriminate.
    injection H as <- <-. cbn [buffer mem].
    destruct (memcpy_frame _ _ _ _ _ B E) as (Hn & Hoff & Hlen & Hdrop); [lia|].
    repeat split; [lia | exact Hlen | exact Hdrop].
Qed.

Lemma dentry_path_loop_frame dc (fuel : nat) :
  forall (p retval : Z) (st : bufstate) (r : pointer) (m' : list byte) (B : Z),
  dentry_path_loop dc fuel p retval st = Ret (r, m') ->
  buffer st <= B ->
  length m' = length (mem st)
  /\ drop (Z.to_nat B) m' = drop (Z.to_nat B) (mem st).
Proof.
  induction fuel as [|fuel IH]; intros p retval st r m' B H HB;
    cbn [dentry_path_loop] in H; [discriminate|].
  unfold IS_ROOT, deref in H.
  destruct (dc !! p) as [x|]; cbn in H; [|discriminate].
  destruct (p =? d_parent x); cbn in H.
  { injection H as <- <-. split; reflexivity. }
  unfold prepend_name in H.
  destruct (prepend st (name (d_name x)) (to_int (len (d_name x))))
    as [[e1 st1]| |] eqn:E1; cbn in H; try discriminate.
  destruct (prepend_frame _ _ _ _ _ B E1 HB) as (Hb1 & Hl1 & Hd1).
  destruct (negb (e1 =? 0)).
  { injection H as <- <-. split; assumption. }
  destruct (prepend st1 lit_slash 1) as [[e2 st2]| |] eqn:E2; cbn in H;
    try discriminate.
  destruct (prepend_frame _ _ _ _ _ B E2) as (Hb2 & Hl2 & Hd2); [lia|].
  destruct (negb (e2 =? 0)).
  { injection H as <- <-. split; congruence. }
  destruct (IH _ _ _ _ _ B H) as (Hl & Hd); [lia|].
  split; congruence.
Qed.

(** X3: whatever the dentry cache holds and however the call ends,
    [smith_dentry_path] leaves the size of the caller's memory and every byte
    at or beyond [buf + buflen] unchanged: it never writes past the capacity
    it was given. *)
Theorem smith_dentry_path_no_overflow dc (fuel : nat) (p : Z) (buf : list byte)
    (cap : Z) (r : pointer) (m' : list byte) :
  smith_dentry_path dc fuel p buf cap = Ret (r, m') ->
  length m' = length buf
  /\ drop (Z.to_nat cap) m' = drop (Z.to_nat cap) buf.
Proof.
  unfold smith_dentry_path. intros H.
  destruct (prepend {| buffer := cap; buflen := cap; mem := buf |} lit_nul 1)
    as [[e1 st1]| |] eqn:E1; cbn in H; try discriminate.
  destruct (prepend_frame _ _ _ _ _ cap E1) as (Hb1 & Hl1 & Hd1); [cbn; lia|].
  cbn [mem buffer] in *.
  destruct (buflen st1 <? 1).
  { injection H as <- <-. split; assumption. }
  destruct (store (mem st1) (buffer st1 - 1) x2f) as [m2| |] eqn:E2; cbn in H;
    try discriminate.
  destruct (store_frame _ _ _ cap _ E2) as (_ & Hl2 & Hd2); [lia|].
  destruct (dentry_path_loop_frame _ _ _ _ _ _ _ cap H) as (Hl & Hd); [cbn; lia|].
  cbn [mem] in *. split; congruence.
Qed.

Lemma smith_dentry_path_no_overflow_witness :
  drop (Z.to_nat 8) [x75; x73; x72; x2f; x62; x69; x6e; x00; xaa; xbb]
  = drop (Z.to_nat 8) (replicate 8 xff ++ [xaa; xbb]).
Proof.
  refine (proj2 (smith_dentry_path_no_overflow dcache_usr_bin 3 300
                   (replicate 8 xff ++ [xaa; xbb]) 8 (ERR_PTR (-36))
                   [x75; x73; x72; x2f; x62; x69; x6e; x00; xaa; xbb] _)).
  reflexivity.
Defined.

(** On a closed dentry cache the walk returns once its fuel exceeds the
    room left: every turn uses up at least the byte of its separator. *)
Lemma dentry_path_loop_returns dc (fuel : nat) :
  dcache_closed dc ->
  forall (p retval : Z) (st : bufstate) (pre post : list byte),
  is_Some (dc !! p) ->
  mem st = pre ++ post ->
  buffer st = Z.of_nat (length pre) ->
  0 <= buflen st <= buffer st ->
  buflen st <= INT_MAX ->
  (Z.to_nat (buflen st) < fuel)%nat ->
  exists (r : pointer) (m' : list byte),
    dentry_path_loop dc fuel p retval st = Ret (r, m').
Proof.
  intros Hclosed.
  induction fuel as [|fuel IH];
    intros p retval st pre post [x Hx] Hmem Hbuf Hroom Hmax Hfuel; [lia|].
  cbn [dentry_path_loop]. unfold IS_ROOT, deref. rewrite Hx. cbn.
  destruct (p =? d_parent x); cbn; [eauto|].
  destruct (Hclosed p x Hx) as (Hparent & Hq & Hqfit).
  assert (Hlen : len (d_name x) = Z.of_nat (length (name (d_name x)))).
  { unfold qstr_wf in Hq. apply Z.eqb_eq in Hq. exact Hq. }
  unfold len_fits_int in Hqfit. apply Z.leb_le in Hqfit.
  destruct (Z.lt_ge_cases (buflen st) (len (d_name x))) as [Hshort|Hfits].
  { unfold prepend_name.
    rewrite to_int_small by (unfold INT_MIN, INT_MAX in *; lia).
    rewrite prepend_elong by (unfold INT_MIN, INT_MAX in *; lia).
    cbn. eauto. }
  rewrite (prepend_name_ok st pre post) by (auto; lia). cbn.
  destruct (Z.lt_ge_cases (buflen st - len (d_name x)) 1) as [Hshort|Hfits'].
  { rewrite prepend_elong by (cbn [buflen]; unfold INT_MIN; lia).
    cbn. eauto. }
  erewrite prepend_slash_ok;
    [ | cbn [mem]; reflexivity | cbn [buffer]; rewrite length_take; lia
      | cbn [buflen buffer]; lia | cbn [buflen]; lia ].
  cbn.
  eapply IH;
    [ exact Hparent | cbn [mem]; reflexivity
    | cbn [buffer]; rewrite length_take, length_take; lia
    | cbn [buflen buffer]; lia | cbn [buflen]; lia | cbn [buflen]; lia ].
Qed.

(** X4: on a closed dentry cache - every parent pointer leads to a node,
    names well formed - [smith_dentry_path] returns a pointer or the sentinel
    within [buflen] turns of its loop, also when the parent pointers form a
    cycle and no root is ever reached. *)
Theorem smith_dentry_path_returns dc (fuel : nat) (p : Z) (buf : list byte)
    (cap : Z) :
  dcache_closed dc ->
  is_Some (dc !! p) ->
  INT_MIN < cap <= INT_MAX ->
  cap <= Z.of_nat (length buf) ->
  (Z.to_nat cap <= fuel)%nat ->
  exists (r : pointer) (m' : list byte),
    smith_dentry_path dc fuel p buf cap = Ret (r, m').
Proof.
  intros Hclosed Hp Hcap Hbuf Hfuel. unfold smith_dentry_path.
  destruct (Z.lt_ge_cases cap 1) as [Hneg|Hpos].
  { rewrite prepend_elong by (cbn [buflen]; unfold INT_MIN in *; lia).
    cbn [mbind exec_bind buflen mem].
    destruct (Z.ltb_spec (cap - 1) 1) as [_|?]; [eauto|lia]. }
  erewrite (prepend_ok _ (take (Z.to_nat cap) buf) (drop (Z.to_nat cap) buf)
              [x00] [x00]);
    [ | cbn [mem]; symmetry; apply take_drop
      | cbn [buffer]; rewrite length_take; lia | reflexivity
      | cbn [buflen buffer]; lia | cbn [buflen]; lia ].
  cbn [mbind exec_bind buflen buffer mem].
  destruct (Z.ltb_spec (cap - 1) 1) as [Hone|Htwo]; [eauto|].
  erewrite store_tail; [ | lia | rewrite length_take, length_take; lia ].
  cbn [mbind exec_bind].
  eapply (dentry_path_loop_returns dc fuel Hclosed p _ _
            (take (Z.to_nat (cap - 1 - 1)) (take (Z.to_nat (cap - 1)) (take (Z.to_nat cap) buf)) ++ [x2f])
            ([x00] ++ drop (Z.to_nat cap) buf));
    [ exact Hp | cbn [mem]; rewrite <- app_assoc; reflexivity
    | cbn [buffer]; rewrite length_app, !length_take; cbn [length]; lia
    | cbn [buflen buffer]; lia | cbn [buflen]; lia | cbn [buflen]; lia ].
Qed.

Lemma smith_dentry_path_returns_witness :
  exists (r : pointer) (m' : list byte),
    smith_dentry_path dcache_cycle 9 100 (replicate 9 xff) 9 = Ret (r, m').
Proof.
  apply smith_dentry_path_returns.
  - unfold dcache_closed, dcache_cycle.
    repeat (apply map_Forall_insert_2; [repeat split; eexists; reflexivity|]).
    apply map_Forall_empty.
  - eexists. reflexivity.
  - unfold INT_MIN, INT_MAX. lia.
  - cbn. lia.
  - cbn. lia.
Defined.

(** X5: with a capacity of 1 or less the function fails before it looks at
    the dentry: whatever the dentry pointer and the cache are, the result is
    [ERR_PTR(-ENAMETOOLONG)]; a capacity of 1 still gets its terminator
    written, a capacity of 0 or less leaves the buffer untouched. *)
Theorem smith_dentry_path_no_room dc (fuel : nat) (p : Z) (buf : list byte)
    (cap : Z) :
  INT_MIN < cap <= 1 ->
  cap <= Z.of_nat (length buf) ->
  smith_dentry_path dc fuel p buf cap
  = Ret (ERR_PTR (- ENAMETOOLONG), if cap =? 1 then <[O := x00]> buf else buf).
Proof.
  intros Hcap Hbuf. unfold smith_dentry_path.
  destruct (Z.eqb_spec cap 1) as [->|Hne].
  - destruct buf as [|b buf]; [cbn in Hbuf; lia|].
    rewrite (prepend_ok _ [b] buf [x00] [x00])
      by first [reflexivity | cbn; unfold INT_MAX; lia].
    reflexivity.
  - rewrite prepend_elong by (cbn [buflen]; unfold INT_MIN in *; lia).
    cbn [mbind exec_bind buflen mem].
    destruct (Z.ltb_spec (cap - 1) 1) as [_|?]; [reflexivity|lia].
Qed.

Lemma smith_dentry_path_no_room_witness :
  smith_dentry_path ∅ 0 12345 [xff; xff] 1
  = Ret (ERR_PTR (- ENAMETOOLONG), [x00; xff]).
Proof.
  apply (smith_dentry_path_no_room ∅ 0 12345 [xff; xff] 1).
  - unfold INT_MIN. lia.
  - cbn. lia.
Defined.

(** ** More on the fingerprint hasher *)

Lemma hash_loop_overrun cfg (s : list byte) (k i : nat) h :
  (i <= length s < i + k)%nat ->
  for_loop k (Z.of_nat i)
    (fun i h => c ← load s i; Ret (hash_round cfg c h)) h
  = Fault.
Proof.
  revert i h. induction k as [|k IH]; intros i h Hlen; [lia|].
  cbn [for_loop]. unfold load.
  destruct (Z.ltb_spec (Z.of_nat i) 0) as [?|_]; [lia|].
  rewrite Nat2Z.id.
  destruct (s !! i) as [c|] eqn:Hc; [|reflexivity].
  apply lookup_lt_Some in Hc. cbn.
  replace (Z.of_nat i + 1) with (Z.of_nat (S i)) by lia.
  apply IH. lia.
Qed.

(** X6: the length is trusted: asked for more bytes than are readable at
    [s], the hasher reads past the end of the object instead of stopping
    there. *)
Theorem hash_murmur_OAAT64_overrun cfg (s : list byte) (n : Z) :
  Z.of_nat (length s) < n ->
  hash_murmur_OAAT64 cfg s n = Fault.
Proof.
  intros Hn. unfold hash_murmur_OAAT64, for_range.
  change 0 with (Z.of_nat 0). apply hash_loop_overrun. lia.
Qed.

Lemma hash_murmur_OAAT64_overrun_witness :
  hash_murmur_OAAT64 build_x86_5_10 [x61; x62] 3 = Fault.
Proof.
  apply (hash_murmur_OAAT64_overrun build_x86_5_10 [x61; x62] 3). cbn. lia.
Defined.

(** X7: the hash of [n + 1] bytes is one round applied to the hash of the
    first [n] bytes and the byte at index [n]: a hash can be extended byte by
    byte without rereading the prefix. *)
Theorem hash_murmur_OAAT64_extend cfg (s : list byte) (n : nat) (c : byte) :
  s !! n = Some c ->
  hash_murmur_OAAT64 cfg s (Z.of_nat n + 1)
  = h ← hash_murmur_OAAT64 cfg s (Z.of_nat n); Ret (hash_round cfg c h).
Proof.
  intros Hc. pose proof (lookup_lt_Some _ _ _ Hc) as Hlt.
  rewrite !hash_murmur_OAAT64_fold by lia.
  cbn [mbind exec_bind]. unfold spec_hash_widened.
  replace (Z.to_nat (Z.of_nat n + 1)) with (S n) by lia.
  rewrite Nat2Z.id, (take_S_r s n c Hc), fold_left_app. cbn [fold_left].
  rewrite hash_round_spec. reflexivity.
Qed.

Lemma hash_murmur_OAAT64_extend_witness :
  hash_murmur_OAAT64 build_x86_5_10 [x2f; x61; x62] (Z.of_nat 2 + 1)
  = h ← hash_murmur_OAAT64 build_x86_5_10 [x2f; x61; x62] (Z.of_nat 2);
    Ret (hash_round build_x86_5_10 x62 h).
Proof.
  apply (hash_murmur_OAAT64_extend build_x86_5_10 [x2f; x61; x62] 2 x62).
  reflexivity.
Defined.

Lemma fold_round_ascii cfg1 cfg2 (l : list byte) h :
  ascii_only l = true ->
  fold_left (spec_round (widened_byte cfg1)) l h
  = fold_left (spec_round (widened_byte cfg2)) l h.
Proof.
  revert h. induction l as [|c l IH]; intros h H; cbn [fold_left]; [reflexivity|].
  cbn in H. apply andb_true_iff in H as [Hc Hl]. apply Z.ltb_lt in Hc.
  rewrite (spec_round_byte_val cfg1), (spec_round_byte_val cfg2) by (right; exact Hc).
  apply IH. exact Hl.
Qed.

(** The round keeps apart two different 64-bit values XORed into the same
    accumulator. *)
Lemma spec_round_inj_widen (w1 w2 : byte -> Z) h c :
  is_u64 h -> is_u64 (w1 c) -> is_u64 (w2 c) ->
  spec_round w1 h c = spec_round w2 h c -> w1 c = w2 c.
Proof.
  intros Hh H1 H2 E. unfold spec_round in E.
  apply xorshift47_inj in E; try apply u64_is_u64.
  apply hash_mult_inj in E; try (apply lxor_is_u64; assumption).
  apply lxor_cancel_l in E. exact E.
Qed.

(** X8: builds that differ in the signedness of [char] compute the same hash
    for input made of bytes below 0x80, and different hashes for every input
    in which exactly one byte is 0x80 or above. *)
Theorem hash_murmur_OAAT64_char_signedness cfg1 cfg2 (pre post : list byte)
    (c : byte) :
  char_is_signed cfg1 = true ->
  char_is_signed cfg2 = false ->
  ascii_only pre = true ->
  ascii_only post = true ->
  hash_murmur_OAAT64 cfg1 (pre ++ post) (Z.of_nat (length (pre ++ post)))
  = hash_murmur_OAAT64 cfg2 (pre ++ post) (Z.of_nat (length (pre ++ post)))
  /\ (128 <= byte_val c ->
      hash_murmur_OAAT64 cfg1 (pre ++ c :: post)
        (Z.of_nat (length (pre ++ c :: post)))
      <> hash_murmur_OAAT64 cfg2 (pre ++ c :: post)
           (Z.of_nat (length (pre ++ c :: post)))).
Proof.
  intros Hs1 Hs2 Hpre Hpost.
  rewrite !hash_murmur_OAAT64_fold by lia.
  unfold spec_hash_widened. rewrite !Nat2Z.id, !firstn_all.
  rewrite !fold_left_app. cbn [fold_left].
  rewrite !(fold_round_ascii cfg1 cfg2 pre) by exact Hpre.
  split.
  - rewrite (fold_round_ascii cfg1 cfg2 post) by exact Hpost. reflexivity.
  - intros Hc E. injection E as E. revert E.
    rewrite (fold_round_ascii cfg1 cfg2 post) by exact Hpost.
    pose proof (fold_round_is_u64 cfg2 pre _ hash_seed_is_u64) as Hh.
    apply fold_round_inj; try apply spec_round_is_u64.
    intros E. apply spec_round_inj_widen in E;
      [ | exact Hh | apply widened_byte_is_u64 | apply widened_byte_is_u64 ].
    unfold widened_byte in E. rewrite Hs1, Hs2 in E. cbn [andb] in E.
    destruct (Z.leb_spec 128 (byte_val c)); lia.
Qed.

Lemma hash_murmur_OAAT64_char_signedness_witness :
  hash_murmur_OAAT64 build_x86_5_10 ([x2f; x61] ++ xc3 :: [x62])
    (Z.of_nat (length ([x2f; x61] ++ xc3 :: [x62])))
  <> hash_murmur_OAAT64 build_arm64_4_19 ([x2f; x61] ++ xc3 :: [x62])
       (Z.of_nat (length ([x2f; x61] ++ xc3 :: [x62]))).
Proof.
  refine (proj2 (hash_murmur_OAAT64_char_signedness build_x86_5_10
                   build_arm64_4_19 [x2f; x61] [x62] xc3 _ _ _ _) _);
    first [reflexivity | vm_compute; discriminate].
Defined.

(** ** More on the symbol resolver *)

Lemma unregistrations_app l1 l2 :
  unregistrations (l1 ++ l2) = (unregistrations l1 + unregistrations l2)%nat.
Proof. unfold unregistrations. rewrite filter_app, length_app. reflexivity. Qed.

Lemma unregistrations_single (e : kevent) :
  unregistrations [e] = if is_unregister e then 1%nat else 0%nat.
Proof. destruct e; reflexivity. Qed.

Lemma called_addresses_app l1 l2 :
  called_addresses (l1 ++ l2) = called_addresses l1 ++ called_addresses l2.
Proof. apply omap_app. Qed.

Lemma successes_S k n :
  successes k (S n)
  = (successes k n + if registration_ok k n then 1 else 0)%nat.
Proof.
  unfold successes. rewrite seq_S, filter_app, length_app. cbn [plus].
  f_equal. rewrite filter_cons, filter_nil.
  destruct (registration_ok k n); cbn.
  - rewrite decide_True by reflexivity. reflexivity.
  - rewrite decide_False by discriminate. reflexivity.
Qed.

Lemma reported_S k n a :
  reported k (S n) a
  = reported k n a
    || (registration_ok k n
        && ((register_kprobe k n "kallsyms_lookup_name").2 =? a)).
Proof.
  unfold reported. rewrite seq_S, existsb_app. cbn. rewrite orb_false_r.
  reflexivity.
Qed.

Lemma reported_mono k n a : reported k n a = true -> reported k (S n) a = true.
Proof. intros H. rewrite reported_S, H. reflexivity. Qed.

(** What one call of the kprobe-based resolver does, by the state of the
    cache and the answer of [register_kprobe]. *)
Lemma smith_kallsyms_lookup_name_step cfg k st nm :
  use_kprobe_lookup cfg = true ->
  let n := registrations (klog st) in
  let ret := (register_kprobe k n "kallsyms_lookup_name").1 in
  let addr := (register_kprobe k n "kallsyms_lookup_name").2 in
  smith_kallsyms_lookup_name cfg k st nm
  = if kallsyms_lookup_name_sym st =? 0 then
      if ret =? 0 then
        if addr =? 0 then
          (0, {| kallsyms_lookup_name_sym := 0;
                 klog := klog st ++ [EvRegisterKprobe "kallsyms_lookup_name";
                                     EvUnregisterKprobe addr] |})
        else
          (call_at k addr nm,
           {| kallsyms_lookup_name_sym := addr;
              klog := klog st ++ [EvRegisterKprobe "kallsyms_lookup_name";
                                  EvUnregisterKprobe addr; EvCall addr nm] |})
      else (0, after_failed_registration st)
    else
      (call_at k (kallsyms_lookup_name_sym st) nm,
       {| kallsyms_lookup_name_sym := kallsyms_lookup_name_sym st;
          klog := klog st ++ [EvCall (kallsyms_lookup_name_sym st) nm] |}).
Proof.
  intros Hcfg n ret addr. subst n ret addr.
  unfold smith_kallsyms_lookup_name, get_kallsyms_func, after_failed_registration.
  rewrite Hcfg.
  destruct (kallsyms_lookup_name_sym st =? 0); [|reflexivity].
  destruct (register_kprobe k _ _) as [ret addr]. cbn [fst snd].
  destruct (ret =? 0); cbn [negb]; [|reflexivity].
  destruct (Z.eqb_spec addr 0) as [->|_];
    rewrite <- !app_assoc; reflexivity.
Qed.

Lemma registrations_cons (e : kevent) l :
  registrations (e :: l)
  = ((if is_register e then 1 else 0) + registrations l)%nat.
Proof.
  rewrite <- registrations_single. apply (registrations_app [e] l).
Qed.

Lemma unregistrations_cons (e : kevent) l :
  unregistrations (e :: l)
  = ((if is_unregister e then 1 else 0) + unregistrations l)%nat.
Proof.
  rewrite <- unregistrations_single. apply (unregistrations_app [e] l).
Qed.

Lemma kprobes_balanced_call cfg k st nm :
  kprobes_balanced k st ->
  kprobes_balanced k (smith_kallsyms_lookup_name cfg k st nm).2.
Proof.
  unfold kprobes_balanced. intros Hinv.
  destruct (use_kprobe_lookup cfg) eqn:Hcfg.
  2:{ unfold smith_kallsyms_lookup_name. rewrite Hcfg. exact Hinv. }
  rewrite (smith_kallsyms_lookup_name_step cfg k st nm Hcfg). cbv zeta.
  pose proof (successes_S k (registrations (klog st))) as HS.
  unfold registration_ok in HS.
  destruct (kallsyms_lookup_name_sym st =? 0);
    [destruct (_.1 =? 0); [destruct (_.2 =? 0)|]|];
    cbn [snd klog after_failed_registration];
    rewrite ?registrations_app, ?unregistrations_app;
    rewrite ?registrations_cons, ?unregistrations_cons;
    cbn [is_register is_unregister];
    change (registrations []) with O; change (unregistrations []) with O;
    rewrite ?Nat.add_0_r, ?Nat.add_1_r, ?HS; lia.
Qed.

Lemma lookup_all_cons cfg k st nm rest :
  lookup_all cfg k st (nm :: rest)
  = ((smith_kallsyms_lookup_name cfg k st nm).1
       :: (lookup_all cfg k (smith_kallsyms_lookup_name cfg k st nm).2 rest).1,
     (lookup_all cfg k (smith_kallsyms_lookup_name cfg k st nm).2 rest).2).
Proof.
  cbn [lookup_all].
  destruct (smith_kallsyms_lookup_name cfg k st nm) as [r st1]. cbn [fst snd].
  destruct (lookup_all cfg k st1 rest) as [rs st2]. reflexivity.
Qed.

(** What every call preserves, every sequence of calls preserves. *)
Lemma lookup_all_invariant (P : kstate -> Prop) cfg k :
  (forall st nm, P st -> P (smith_kallsyms_lookup_name cfg k st nm).2) ->
  forall (names : list string) (st : kstate),
    P st -> P (lookup_all cfg k st names).2.
Proof.
  intros Hstep names. induction names as [|nm rest IH]; intros st HP.
  - exact HP.
  - rewrite lookup_all_cons. cbn [snd]. apply IH, Hstep, HP.
Qed.

(** X9: no probe is left armed.  Over any sequence of calls, in any build,
    the number of [unregister_kprobe] calls stays equal to the number of
    [register_kprobe] calls that succeeded, if it was so before. *)
Theorem kprobes_balanced_always cfg k (st : kstate) (names : list string) :
  kprobes_balanced k st ->
  kprobes_balanced k (lookup_all cfg k st names).2.
Proof.
  apply (lookup_all_invariant (kprobes_balanced k)).
  intros st' nm. apply kprobes_balanced_call.
Qed.

Lemma kprobes_balanced_always_witness :
  kprobes_balanced kernel_flaky
    (lookup_all build_x86_5_10 kernel_flaky kstate_init
       ["vfs_read"; "vfs_write"; "vfs_read"]%string).2.
Proof.
  apply (kprobes_balanced_always build_x86_5_10 kernel_flaky kstate_init).
  reflexivity.
Defined.

Lemma addresses_reported_call cfg k st nm :
  addresses_reported k st ->
  addresses_reported k (smith_kallsyms_lookup_name cfg k st nm).2.
Proof.
  unfold addresses_reported. intros [Hsym Hcalled].
  destruct (use_kprobe_lookup cfg) eqn:Hcfg.
  2:{ unfold smith_kallsyms_lookup_name. rewrite Hcfg. split; assumption. }
  rewrite (smith_kallsyms_lookup_name_step cfg k st nm Hcfg). cbv zeta.
  pose proof (reported_S k (registrations (klog st))) as HS.
  unfold registration_ok in HS.
  assert (Hmono : Forall (fun a => reported k (S (registrations (klog st))) a = true)
                    (called_addresses (klog st))).
  { eapply Forall_impl; [exact Hcalled|]. intros a. apply reported_mono. }
  destruct (Z.eqb_spec (kallsyms_lookup_name_sym st) 0) as [Hnull|Hset];
    [destruct (_.1 =? 0) eqn:Hret;
     [destruct (Z.eqb_spec (register_kprobe k (registrations (klog st))
                              "kallsyms_lookup_name").2 0) as [Hzero|Hnz]|]|];
    cbn [snd klog kallsyms_lookup_name_sym after_failed_registration];
    rewrite ?registrations_app, ?called_addresses_app;
    rewrite ?registrations_cons; cbn [is_register called_addresses omap list_omap];
    change (registrations []) with O; rewrite ?Nat.add_0_r, ?Nat.add_1_r, ?app_nil_r.
  - split; [left; reflexivity | exact Hmono].
  - assert (Hnew : reported k (S (registrations (klog st)))
                     (register_kprobe k (registrations (klog st))
                        "kallsyms_lookup_name").2 = true).
    { rewrite HS, ?Hret, Z.eqb_refl. apply orb_true_r. }
    split; [right; exact Hnew|].
    apply Forall_app. split; [exact Hmono|]. constructor; [exact Hnew|constructor].
  - split; [left; reflexivity | exact Hmono].
  - destruct Hsym as [Hsym|Hsym]; [contradiction|].
    split; [right; exact Hsym|].
    apply Forall_app. split; [exact Hcalled|]. constructor; [exact Hsym|constructor].
Qed.

(** X10: the resolver only trusts the probe.  Over any sequence of calls, in
    any build, the cached pointer - when set - and every address that was
    called as a function are addresses that a successful [register_kprobe]
    on ["kallsyms_lookup_name"] filled in, if it was so before. *)
Theorem addresses_reported_always cfg k (st : kstate) (names : list string) :
  addresses_reported k st ->
  addresses_reported k (lookup_all cfg k st names).2.
Proof.
  apply (lookup_all_invariant (addresses_reported k)).
  intros st' nm. apply addresses_reported_call.
Qed.

Lemma addresses_reported_always_witness :
  addresses_reported kernel_flaky
    (lookup_all build_x86_5_10 kernel_flaky kstate_init
       ["vfs_read"; "vfs_write"; "vfs_read"]%string).2.
Proof.
  apply (addresses_reported_always build_x86_5_10 kernel_flaky kstate_init).
  split; [left; reflexivity | constructor].
Defined.

(** X11: a registration that succeeds but reports a null address counts as
    a failure: the probe is removed again, nothing is called, the call
    returns 0 with the cache still null, and the next call registers anew. *)
Theorem smith_kallsyms_lookup_name_null_address cfg k (st : kstate) (nm : string) :
  use_kprobe_lookup cfg = true ->
  kallsyms_lookup_name_sym st = 0 ->
  register_kprobe k (registrations (klog st)) "kallsyms_lookup_name" = (0, 0) ->
  smith_kallsyms_lookup_name cfg k st nm
  = (0, {| kallsyms_lookup_name_sym := 0;
           klog := klog st ++ [EvRegisterKprobe "kallsyms_lookup_name";
                               EvUnregisterKprobe 0] |})
  /\ (forall nm' : string,
        registrations
          (klog (smith_kallsyms_lookup_name cfg k
                   (smith_kallsyms_lookup_name cfg k st nm).2 nm').2)
        = S (S (registrations (klog st)))).
Proof.
  intros Hcfg Hsym Hreg.
  assert (Hcall : smith_kallsyms_lookup_name cfg k st nm
                  = (0, {| kallsyms_lookup_name_sym := 0;
                           klog := klog st ++ [EvRegisterKprobe "kallsyms_lookup_name";
                                               EvUnregisterKprobe 0] |})).
  { rewrite (smith_kallsyms_lookup_name_step cfg k st nm Hcfg). cbv zeta.
    rewrite Hsym, Hreg. reflexivity. }
  split; [exact Hcall|]. intros nm'. rewrite Hcall. cbn [snd].
  rewrite smith_kallsyms_lookup_name_attempts by (auto; reflexivity).
  cbn [klog]. rewrite registrations_app, !registrations_cons. cbn [is_register].
  change (registrations []) with O. lia.
Qed.

Lemma smith_kallsyms_lookup_name_null_address_witness :
  smith_kallsyms_lookup_name build_x86_5_10 kernel_null_addr kstate_init "vfs_read"
  = (0, {| kallsyms_lookup_name_sym := 0;
           klog := [EvRegisterKprobe "kallsyms_lookup_name";
                    EvUnregisterKprobe 0] |}).
Proof.
  refine (proj1 (smith_kallsyms_lookup_name_null_address build_x86_5_10
                   kernel_null_addr kstate_init "vfs_read" _ _ _));
    reflexivity.
Defined.

(** X12: a build for a kernel from 2.6.33 up to, not including, 5.7.0 never
    touches the probe facility or the cache: every call is answered by the
    kernel's own [kallsyms_lookup_name] and leaves the resolver's state as it
    was. *)
Theorem smith_kallsyms_lookup_name_direct cfg k (st : kstate) (names : list string) :
  KERNEL_VERSION 2 6 33 <= LINUX_VERSION_CODE cfg < KERNEL_VERSION 5 7 0 ->
  lookup_all cfg k st names = (map (kallsyms_lookup_name k) names, st).
Proof.
  intros Hver.
  assert (Hcfg : use_kprobe_lookup cfg = false).
  { unfold use_kprobe_lookup. apply orb_false_iff.
    split; [apply Z.leb_gt | apply Z.ltb_ge]; lia. }
  revert st. induction names as [|nm rest IH]; intros st; [reflexivity|].
  rewrite lookup_all_cons. unfold smith_kallsyms_lookup_name at 1 2 3.
  rewrite Hcfg. cbn [fst snd]. rewrite IH. reflexivity.
Qed.

Lemma smith_kallsyms_lookup_name_direct_witness :
  lookup_all build_arm64_4_19 kernel_flaky kstate_init ["vfs_read"; "vfs_write"]%string
  = (map (kallsyms_lookup_name kernel_flaky) ["vfs_read"; "vfs_write"]%string,
     kstate_init).
Proof.
  apply (smith_kallsyms_lookup_name_direct build_arm64_4_19 kernel_flaky).
  vm_compute. split; [discriminate | reflexivity].
Defined.

(** ** The string copy *)

Lemma load_nat (m : list byte) (i : nat) :
  load m (Z.of_nat i) = match m !! i with Some b => Ret b | None => Fault end.
Proof.
  unfold load. destruct (Z.ltb_spec (Z.of_nat i) 0); [lia|].
  rewrite Nat2Z.id. reflexivity.
Qed.

Lemma store_nat (m : list byte) (i : nat) (c : byte) :
  (i < length m)%nat -> store m (Z.of_nat i) c = Ret (<[i := c]> m).
Proof.
  intros Hi. unfold store.
  destruct (Z.leb_spec 0 (Z.of_nat i)); [|lia].
  destruct (Z.ltb_spec (Z.of_nat i) (Z.of_nat (length m))); [|lia].
  rewrite Nat2Z.id. reflexivity.
Qed.

Lemma byte_eqb_neq (c : byte) : c <> x00 -> Byte.eqb c x00 = false.
Proof.
  intros Hc. destruct (Byte.eqb c x00) eqn:E; [|reflexivity].
  apply Byte.byte_dec_bl in E. contradiction.
Qed.

(** The loop on a terminated string whose destination does not run into the
    part of the source still to be read. *)
Lemma strcpy_loop_copy (str : list byte) :
  forall (fuel : nat) (m : list byte) (d s : nat),
  take (S (length str)) (drop s m) = str ++ [x00] ->
  nul_free str = true ->
  (d + length str < length m)%nat ->
  (d <= s \/ s + length str < d)%nat ->
  (length str < fuel)%nat ->
  strcpy_loop fuel m (Z.of_nat d) (Z.of_nat s)
  = Ret (take d m ++ str ++ [x00] ++ drop (d + length str + 1) m).
Proof.
  induction str as [|c str IH]; intros fuel m d s Hsrc Hnul Hroom Hsep Hfuel;
    (destruct fuel as [|fuel]; [cbn in Hfuel; lia|]); cbn [strcpy_loop length] in *.
  - assert (Hs : m !! s = Some x00).
    { apply (f_equal (fun l => l !! O)) in Hsrc.
      rewrite lookup_take_lt, lookup_drop, Nat.add_0_r in Hsrc by lia. exact Hsrc. }
    rewrite load_nat, Hs. cbn [mbind exec_bind].
    rewrite store_nat by lia. cbn [mbind exec_bind Byte.eqb negb].
    rewrite insert_take_drop by lia.
    replace (d + 0 + 1)%nat with (S d) by lia. reflexivity.
  - assert (Hs : m !! s = Some c).
    { apply (f_equal (fun l => l !! O)) in Hsrc.
      rewrite lookup_take_lt, lookup_drop, Nat.add_0_r in Hsrc by lia. exact Hsrc. }
    cbn [nul_free forallb] in Hnul. apply andb_true_iff in Hnul as [Hc Hnul].
    rewrite load_nat, Hs. cbn [mbind exec_bind].
    rewrite store_nat by lia. cbn [mbind exec_bind]. rewrite Hc.
    replace (Z.of_nat d + 1) with (Z.of_nat (S d)) by lia.
    replace (Z.of_nat s + 1) with (Z.of_nat (S s)) by lia.
    rewrite IH; [ | | exact Hnul | rewrite length_insert; lia | lia | lia ].
    + rewrite (take_S_r _ d c) by (apply list_lookup_insert_eq; lia).
      rewrite take_insert_ge by lia.
      rewrite drop_insert_lt by lia.
      rewrite <- !app_assoc. cbn [app].
      replace (S d + length str + 1)%nat with (d + S (length str) + 1)%nat by lia.
      reflexivity.
    + rewrite (drop_S m c s Hs) in Hsrc. cbn [take app] in Hsrc.
      injection Hsrc as Hsrc.
      destruct Hsep as [Hsep|Hsep].
      * rewrite drop_insert_lt by lia. exact Hsrc.
      * rewrite drop_insert_ge by lia. rewrite take_insert_ge by lia. exact Hsrc.
Qed.

(** X13: for a NUL-terminated string [str] at [src] and a destination that
    has room for it and either lies at or below [src] or begins after the
    string's terminator, [smith_strcpy] returns [dest], the string and its
    terminator are at [dest], and no byte outside those [len + 1] is
    changed. *)
Theorem smith_strcpy_copies (fuel : nat) (m str : list byte) (dest src : Z) :
  0 <= dest -> 0 <= src ->
  segment m src (S (length str)) = str ++ [x00] ->
  nul_free str = true ->
  dest + Z.of_nat (length str) + 1 <= Z.of_nat (length m) ->
  dest <= src \/ src + Z.of_nat (length str) + 1 <= dest ->
  (length str < fuel)%nat ->
  exists m' : list byte,
    smith_strcpy fuel m dest src = Ret (dest, m')
    /\ m' = take (Z.to_nat dest) m ++ str ++ [x00]
            ++ drop (Z.to_nat dest + length str + 1) m
    /\ c_string m' dest = Some str.
Proof.
  intros Hd Hs Hsrc Hnul Hroom Hsep Hfuel. unfold smith_strcpy.
  replace (strcpy_loop fuel m dest src)
    with (strcpy_loop fuel m (Z.of_nat (Z.to_nat dest)) (Z.of_nat (Z.to_nat src)))
    by (rewrite !Z2Nat.id by lia; reflexivity).
  rewrite (strcpy_loop_copy str) by (auto; lia).
  cbn [mbind exec_bind]. eexists. split; [reflexivity|]. split; [reflexivity|].
  apply c_string_middle; [rewrite length_take; lia | exact Hnul].
Qed.

Lemma smith_strcpy_copies_witness :
  exists m' : list byte,
    smith_strcpy 3 mem_ab 5 1 = Ret (5, m')
    /\ c_string m' 5 = Some [x61; x62].
Proof.
  destruct (smith_strcpy_copies 3 mem_ab [x61; x62] 5 1) as (m' & Hres & _ & Hstr);
    first [reflexivity | lia | cbn; lia | idtac].
  exists m'. split; [exact Hres | exact Hstr].
Defined.

(** The loop cannot run longer than there are bytes from [src] to the end
    of memory: after that the load itself fails. *)
Lemma strcpy_loop_fuel (fuel : nat) :
  forall (m : list byte) (d : Z) (s : nat),
  (length m - s < fuel)%nat ->
  strcpy_loop fuel m d (Z.of_nat s) <> OutOfFuel.
Proof.
  induction fuel as [|fuel IH]; intros m d s Hfuel; [lia|].
  cbn [strcpy_loop]. rewrite load_nat.
  destruct (m !! s) as [c|] eqn:Hc; cbn [mbind exec_bind]; [|discriminate].
  apply lookup_lt_Some in Hc.
  unfold store.
  destruct ((0 <=? d) && (d <? Z.of_nat (length m))); cbn [mbind exec_bind];
    [|discriminate].
  destruct (negb (Byte.eqb c x00)); [|discriminate].
  replace (Z.of_nat s + 1) with (Z.of_nat (S s)) by lia.
  apply IH. rewrite length_insert. lia.
Qed.

(** Without a NUL from [src] to the end of memory the loop does not return:
    the bytes it writes are bytes it read, none of them NUL. *)
Lemma strcpy_loop_unterminated (fuel : nat) :
  forall (m : list byte) (d : Z) (s : nat) (r : list byte),
  (forall j : nat, (s <= j)%nat -> m !! j <> Some x00) ->
  strcpy_loop fuel m d (Z.of_nat s) <> Ret r.
Proof.
  induction fuel as [|fuel IH]; intros m d s r Hno; [discriminate|].
  cbn [strcpy_loop]. rewrite load_nat.
  destruct (m !! s) as [c|] eqn:Hc; cbn [mbind exec_bind]; [|discriminate].
  assert (Hc0 : c <> x00) by (intros ->; apply (Hno s); [lia|exact Hc]).
  unfold store.
  destruct ((0 <=? d) && (d <? Z.of_nat (length m))); cbn [mbind exec_bind];
    [|discriminate].
  rewrite (byte_eqb_neq c Hc0). cbn [negb].
  replace (Z.of_nat s + 1) with (Z.of_nat (S s)) by lia.
  apply IH. intros j Hj Hz.
  apply list_lookup_insert_Some in Hz as [(_ & Hz & _)|(_ & Hz)].
  - contradiction.
  - apply (Hno j); [lia|exact Hz].
Qed.

(** X14: when no NUL lies between [src] and the end of the readable memory,
    [smith_strcpy] never returns, whatever the destination: it copies until a
    load or a store leaves the memory. *)
Theorem smith_strcpy_unterminated (fuel : nat) (m : list byte) (dest src : Z) :
  0 <= src ->
  nul_free (drop (Z.to_nat src) m) = true ->
  (forall r, smith_strcpy fuel m dest src <> Ret r)
  /\ ((length m - Z.to_nat src < fuel)%nat ->
      smith_strcpy fuel m dest src = Fault).
Proof.
  intros Hs Hnul.
  assert (Hno : forall j : nat, (Z.to_nat src <= j)%nat -> m !! j <> Some x00).
  { intros j Hj Hz.
    replace j with (Z.to_nat src + (j - Z.to_nat src))%nat in Hz by lia.
    rewrite <- lookup_drop in Hz.
    unfold nul_free in Hnul. rewrite forallb_forall in Hnul.
    apply list_elem_of_lookup_2, list_elem_of_In, Hnul in Hz. discriminate. }
  unfold smith_strcpy. rewrite <- (Z2Nat.id src Hs).
  pose proof (strcpy_loop_unterminated fuel m dest (Z.to_nat src)) as Hret.
  pose proof (strcpy_loop_fuel fuel m dest (Z.to_nat src)) as Hfuel.
  rewrite Nat2Z.id.
  destruct (strcpy_loop fuel m dest (Z.of_nat (Z.to_nat src))) as [m'| |];
    cbn [mbind exec_bind].
  - exfalso. apply (Hret m' Hno). reflexivity.
  - split; [discriminate|reflexivity].
  - split; [discriminate|]. intros Hf. exfalso. apply (Hfuel Hf). reflexivity.
Qed.

Lemma smith_strcpy_unterminated_witness :
  smith_strcpy 5 mem_ab 0 4 = Fault.
Proof.
  refine (proj2 (smith_strcpy_unterminated 5 mem_ab 0 4 _ _) _).
  - lia.
  - reflexivity.
  - cbn. lia.
Defined.

(** With the destination ahead of the source and no NUL between the two,
    every byte the loop reads is one that was there or one it wrote itself,
    none of them NUL. *)
Lemma strcpy_loop_chases (fuel : nat) :
  forall (m : list byte) (d s : nat) (r : list byte),
  (s < d)%nat ->
  (forall j : nat, (s <= j < d)%nat -> m !! j <> Some x00) ->
  strcpy_loop fuel m (Z.of_nat d) (Z.of_nat s) <> Ret r.
Proof.
  induction fuel as [|fuel IH]; intros m d s r Hsd Hno; [discriminate|].
  cbn [strcpy_loop]. rewrite load_nat.
  destruct (m !! s) as [c|] eqn:Hc; cbn [mbind exec_bind]; [|discriminate].
  assert (Hc0 : c <> x00) by (intros ->; apply (Hno s); [lia|exact Hc]).
  destruct (Nat.lt_ge_cases d (length m)) as [Hin|Hout].
  - rewrite store_nat by exact Hin. cbn [mbind exec_bind].
    rewrite (byte_eqb_neq c Hc0). cbn [negb].
    replace (Z.of_nat d + 1) with (Z.of_nat (S d)) by lia.
    replace (Z.of_nat s + 1) with (Z.of_nat (S s)) by lia.
    apply IH; [lia|]. intros j Hj Hz.
    apply list_lookup_insert_Some in Hz as [(_ & Hz & _)|(Hne & Hz)].
    + contradiction.
    + apply (Hno j); [lia|exact Hz].
  - unfold store.
    destruct (Z.ltb_spec (Z.of_nat d) (Z.of_nat (length m))); [lia|].
    rewrite andb_false_r. discriminate.
Qed.

(** X15: when [dest] lies ahead of [src] and no NUL lies in between - as
    when copying a string onto its own tail - the terminator is overwritten
    before it is read: [smith_strcpy] never returns and runs off the end of
    memory. *)
Theorem smith_strcpy_overlap_ahead (fuel : nat) (m : list byte) (dest src : Z) :
  0 <= src < dest ->
  nul_free (segment m src (Z.to_nat (dest - src))) = true ->
  (forall r, smith_strcpy fuel m dest src <> Ret r)
  /\ ((length m - Z.to_nat src < fuel)%nat ->
      smith_strcpy fuel m dest src = Fault).
Proof.
  intros Hsd Hnul.
  assert (Hno : forall j : nat,
             (Z.to_nat src <= j < Z.to_nat dest)%nat -> m !! j <> Some x00).
  { intros j Hj Hz.
    replace j with (Z.to_nat src + (j - Z.to_nat src))%nat in Hz by lia.
    rewrite <- lookup_drop in Hz.
    rewrite <- (lookup_take_lt _ (Z.to_nat (dest - src))) in Hz by lia.
    unfold nul_free, segment in Hnul. rewrite forallb_forall in Hnul.
    apply list_elem_of_lookup_2, list_elem_of_In, Hnul in Hz. discriminate. }
  unfold smith_strcpy.
  replace (strcpy_loop fuel m dest src)
    with (strcpy_loop fuel m (Z.of_nat (Z.to_nat dest)) (Z.of_nat (Z.to_nat src)))
    by (rewrite !Z2Nat.id by lia; reflexivity).
  pose proof (strcpy_loop_chases fuel m (Z.to_nat dest) (Z.to_nat src)) as Hret.
  pose proof (strcpy_loop_fuel fuel m (Z.of_nat (Z.to_nat dest)) (Z.to_nat src))
    as Hfuel.
  destruct (strcpy_loop fuel m (Z.of_nat (Z.to_nat dest)) (Z.of_nat (Z.to_nat src)))
    as [m'| |]; cbn [mbind exec_bind].
  - exfalso. apply (Hret m'); [lia | exact Hno | reflexivity].
  - split; [discriminate|reflexivity].
  - split; [discriminate|]. intros Hf. exfalso. apply (Hfuel Hf). reflexivity.
Qed.

Lemma smith_strcpy_overlap_ahead_witness :
  smith_strcpy 8 mem_ab 2 1 = Fault.
Proof.
  refine (proj2 (smith_strcpy_overlap_ahead 8 mem_ab 2 1 _ _) _).
  - lia.
  - reflexivity.
  - cbn. lia.
Defined.

(** A destination beyond the source with too few bytes left: the loop stores
    past the end of memory before it reaches the terminator. *)
Lemma strcpy_loop_overruns (str : list byte) :
  forall (fuel : nat) (m : list byte) (d s : nat),
  take (S (length str)) (drop s m) = str ++ [x00] ->
  nul_free str = true ->
  (s + length str < d)%nat ->
  (length m <= d + length str)%nat ->
  (length str < fuel)%nat ->
  strcpy_loop fuel m (Z.of_nat d) (Z.of_nat s) = Fault.
Proof.
  induction str as [|c str IH]; intros fuel m d s Hsrc Hnul Hsep Hshort Hfuel;
    (destruct fuel as [|fuel]; [cbn in Hfuel; lia|]); cbn [strcpy_loop length] in *.
  - assert (Hs : m !! s = Some x00).
    { apply (f_equal (fun l => l !! O)) in Hsrc.
      rewrite lookup_take_lt, lookup_drop, Nat.add_0_r in Hsrc by lia. exact Hsrc. }
    rewrite load_nat, Hs. cbn [mbind exec_bind]. unfold store.
    destruct (Z.ltb_spec (Z.of_nat d) (Z.of_nat (length m))); [lia|].
    rewrite andb_false_r. reflexivity.
  - assert (Hs : m !! s = Some c).
    { apply (f_equal (fun l => l !! O)) in Hsrc.
      rewrite lookup_take_lt, lookup_drop, Nat.add_0_r in Hsrc by lia. exact Hsrc. }
    cbn [nul_free forallb] in Hnul. apply andb_true_iff in Hnul as [Hc Hnul].
    rewrite load_nat, Hs. cbn [mbind exec_bind].
    destruct (Nat.lt_ge_cases d (length m)) as [Hin|Hout].
    + rewrite store_nat by exact Hin. cbn [mbind exec_bind]. rewrite Hc.
      replace (Z.of_nat d + 1) with (Z.of_nat (S d)) by lia.
      replace (Z.of_nat s + 1) with (Z.of_nat (S s)) by lia.
      apply IH; [ | exact Hnul | lia | rewrite length_insert; lia | lia ].
      rewrite (drop_S m c s Hs) in Hsrc. cbn [take app] in Hsrc.
      injection Hsrc as Hsrc.
      rewrite drop_insert_ge by lia. rewrite take_insert_ge by lia. exact Hsrc.
    + unfold store.
      destruct (Z.ltb_spec (Z.of_nat d) (Z.of_nat (length m))); [lia|].
      rewrite andb_false_r. reflexivity.
Qed.

(** X16: the size of the destination is not known to [smith_strcpy]: when
    fewer than [len + 1] bytes are left from [dest] to the end of memory, the
    copy of a string lying before [dest] writes past that end. *)
Theorem smith_strcpy_overrun (fuel : nat) (m str : list byte) (dest src : Z) :
  0 <= src ->
  segment m src (S (length str)) = str ++ [x00] ->
  nul_free str = true ->
  src + Z.of_nat (length str) + 1 <= dest ->
  Z.of_nat (length m) < dest + Z.of_nat (length str) + 1 ->
  (length str < fuel)%nat ->
  smith_strcpy fuel m dest src = Fault.
Proof.
  intros Hs Hsrc Hnul Hsep Hshort Hfuel. unfold smith_strcpy.
  replace (strcpy_loop fuel m dest src)
    with (strcpy_loop fuel m (Z.of_nat (Z.to_nat dest)) (Z.of_nat (Z.to_nat src)))
    by (rewrite !Z2Nat.id by lia; reflexivity).
  rewrite (strcpy_loop_overruns str) by (auto; lia). reflexivity.
Qed.

Lemma smith_strcpy_overrun_witness :
  smith_strcpy 3 mem_ab 6 1 = Fault.
Proof.
  apply (smith_strcpy_overrun 3 mem_ab [x61; x62] 6 1);
    first [reflexivity | lia | cbn; lia].
Defined.
